(** * MetronomeCore: a shallow embedding of the lookahead metronome scheduler

    This development embeds [src/core/MetronomeCore.ts] and [src/core/types.ts]
    and proves the properties of the scheduler, of the tempo/meter/accent state
    and of the observer registries.

    Modelling conventions.
    - JavaScript numbers holding times, tempi and frequencies are read as exact
      rationals ([Q]); rounding, [NaN] and the infinities of IEEE doubles are
      outside the model.  [60 / bpm] at [bpm = 0] is [Infinity] in JavaScript
      and [0] in [Q]: every statement that depends on the interval says what it
      assumes about [_bpm].
    - [meter], [pulse] and beat indexes are integers ([Z]).
    - Callbacks are identified by a name ([Callback]); what a callback does when
      it is invoked is given by [handlers], a program over the synchronous
      public interface of the metronome.  Invocations re-enter the object, as in
      JavaScript, so every method runs inside the fuelled interpreter [run].
    - [audioContext.currentTime] is the parameter [now] of the interpreter: the
      clock does not move inside one synchronous call.
    - The calls made on the audio nodes, on the timer and on the callbacks are
      recorded, in order, in the ghost field [trace]. *)

From Stdlib Require Import ZArith QArith Qminmax Qround Lqa Lia Sorted.
From stdpp Require Import base option list.

Local Open Scope Z_scope.

(** ** Data model ([types.ts]) *)

Definition Callback := nat.

Record MetronomeState := {
  isPlaying : bool;
  pulse : Z;
  meter : Z;
  bpm : Q;
  accents : list bool
}.

Record MetronomeConfig := {
  cfg_bpm : option Q;
  cfg_meter : option Z;
  cfg_accents : option (list bool);
  cfg_lookahead : option Q;
  cfg_scheduleAheadTime : option Q;
  cfg_minBpm : option Q;
  cfg_maxBpm : option Q;
  cfg_accentFrequency : option Q;
  cfg_normalFrequency : option Q
}.

(** The argument a callback receives: [TickCallback] gets
    [(pulse, isAccented, time)], [StateChangeCallback] gets the snapshot. *)
Inductive CallbackArg :=
| TickArg (pulse : Z) (isAccented : bool) (time : Q)
| StateArg (state : MetronomeState).

(** Calls on the collaborators of the object, in the order they are made. *)
Inductive Event :=
| NodesCreated
| NodesReleased
| FrequencyAt (frequency time : Q)
| GainCancelAt (time : Q)
| GainSetAt (value time : Q)
| GainLinearRampAt (value time : Q)
| GainExponentialRampAt (value time : Q)
| TimerArmed (delay : Q)
| TimerCleared
| ContextClosed
| Called (cb : Callback) (arg : CallbackArg).

Inductive AudioContextState := Suspended | Running.

(** The readonly configuration fields of the class. *)
Record Config := {
  lookahead : Q;
  scheduleAheadTime : Q;
  minBpm : Q;
  maxBpm : Q;
  accentFrequency : Q;
  normalFrequency : Q
}.

Record MetronomeCore := {
  (* Audio context and nodes *)
  audioContext : option AudioContextState;
  oscillator : bool;
  gainNode : bool;
  (* Timing state *)
  nextTickTime : Q;
  lastTickTime : Q;
  timeOffset : Q;
  scheduleIntervalId : option Q;
  (* Configuration *)
  config : Config;
  (* Current state *)
  _isPlaying : bool;
  _pulse : Z;
  _meter : Z;
  _bpm : Q;
  _accents : list bool;
  (* Callbacks *)
  stateChangeCallbacks : list Callback;
  tickCallbacks : list Callback;
  (* Ghost: history of calls on the collaborators *)
  trace : list Event
}.

(** Field assignments. *)

Definition with_audioContext (v : option AudioContextState) (m : MetronomeCore) : MetronomeCore :=
  Build_MetronomeCore
    v (oscillator m) (gainNode m) (nextTickTime m) (lastTickTime m) (timeOffset m)
    (scheduleIntervalId m) (config m) (_isPlaying m) (_pulse m) (_meter m) (_bpm m)
    (_accents m) (stateChangeCallbacks m) (tickCallbacks m) (trace m).

Definition with_oscillator (v : bool) (m : MetronomeCore) : MetronomeCore :=
  Build_MetronomeCore
    (audioContext m) v (gainNode m) (nextTickTime m) (lastTickTime m) (timeOffset m)
    (scheduleIntervalId m) (config m) (_isPlaying m) (_pulse m) (_meter m) (_bpm m)
    (_accents m) (stateChangeCallbacks m) (tickCallbacks m) (trace m).

Definition with_gainNode (v : bool) (m : MetronomeCore) : MetronomeCore :=
  Build_MetronomeCore
    (audioContext m) (oscillator m) v (nextTickTime m) (lastTickTime m) (timeOffset m)
    (scheduleIntervalId m) (config m) (_isPlaying m) (_pulse m) (_meter m) (_bpm m)
    (_accents m) (stateChangeCallbacks m) (tickCallbacks m) (trace m).

Definition with_nextTickTime (v : Q) (m : MetronomeCore) : MetronomeCore :=
  Build_MetronomeCore
    (audioContext m) (oscillator m) (gainNode m) v (lastTickTime m) (timeOffset m)
    (scheduleIntervalId m) (config m) (_isPlaying m) (_pulse m) (_meter m) (_bpm m)
    (_accents m) (stateChangeCallbacks m) (tickCallbacks m) (trace m).

Definition with_lastTickTime (v : Q) (m : MetronomeCore) : MetronomeCore :=
  Build_MetronomeCore
    (audioContext m) (oscillator m) (gainNode m) (nextTickTime m) v (timeOffset m)
    (scheduleIntervalId m) (config m) (_isPlaying m) (_pulse m) (_meter m) (_bpm m)
    (_accents m) (stateChangeCallbacks m) (tickCallbacks m) (trace m).

Definition with_timeOffset (v : Q) (m : MetronomeCore) : MetronomeCore :=
  Build_MetronomeCore
    (audioContext m) (oscillator m) (gainNode m) (nextTickTime m) (lastTickTime m) v
    (scheduleIntervalId m) (config m) (_isPlaying m) (_pulse m) (_meter m) (_bpm m)
    (_accents m) (stateChangeCallbacks m) (tickCallbacks m) (trace m).

Definition with_scheduleIntervalId (v : option Q) (m : MetronomeCore) : MetronomeCore :=
  Build_MetronomeCore
    (audioContext m) (oscillator m) (gainNode m) (nextTickTime m) (lastTickTime m)
    (timeOffset m) v (config m) (_isPlaying m) (_pulse m) (_meter m) (_bpm m) (_accents
    m) (stateChangeCallbacks m) (tickCallbacks m) (trace m).

Definition with_isPlaying (v : bool) (m : MetronomeCore) : MetronomeCore :=
  Build_MetronomeCore
    (audioContext m) (oscillator m) (gainNode m) (nextTickTime m) (lastTickTime m)
    (timeOffset m) (scheduleIntervalId m) (config m) v (_pulse m) (_meter m) (_bpm m)
    (_accents m) (stateChangeCallbacks m) (tickCallbacks m) (trace m).

Definition with_pulse (v : Z) (m : MetronomeCore) : MetronomeCore :=
  Build_MetronomeCore
    (audioContext m) (oscillator m) (gainNode m) (nextTickTime m) (lastTickTime m)
    (timeOffset m) (scheduleIntervalId m) (config m) (_isPlaying m) v (_meter m) (_bpm
    m) (_accents m) (stateChangeCallbacks m) (tickCallbacks m) (trace m).

Definition with_meter (v : Z) (m : MetronomeCore) : MetronomeCore :=
  Build_MetronomeCore
    (audioContext m) (oscillator m) (gainNode m) (nextTickTime m) (lastTickTime m)
    (timeOffset m) (scheduleIntervalId m) (config m) (_isPlaying m) (_pulse m) v (_bpm
    m) (_accents m) (stateChangeCallbacks m) (tickCallbacks m) (trace m).

Definition with_bpm (v : Q) (m : MetronomeCore) : MetronomeCore :=
  Build_MetronomeCore
    (audioContext m) (oscillator m) (gainNode m) (nextTickTime m) (lastTickTime m)
    (timeOffset m) (scheduleIntervalId m) (config m) (_isPlaying m) (_pulse m) (_meter
    m) v (_accents m) (stateChangeCallbacks m) (tickCallbacks m) (trace m).

Definition with_accents (v : list bool) (m : MetronomeCore) : MetronomeCore :=
  Build_MetronomeCore
    (audioContext m) (oscillator m) (gainNode m) (nextTickTime m) (lastTickTime m)
    (timeOffset m) (scheduleIntervalId m) (config m) (_isPlaying m) (_pulse m) (_meter
    m) (_bpm m) v (stateChangeCallbacks m) (tickCallbacks m) (trace m).

Definition with_stateChangeCallbacks (v : list Callback) (m : MetronomeCore) : MetronomeCore :=
  Build_MetronomeCore
    (audioContext m) (oscillator m) (gainNode m) (nextTickTime m) (lastTickTime m)
    (timeOffset m) (scheduleIntervalId m) (config m) (_isPlaying m) (_pulse m) (_meter
    m) (_bpm m) (_accents m) v (tickCallbacks m) (trace m).

Definition with_tickCallbacks (v : list Callback) (m : MetronomeCore) : MetronomeCore :=
  Build_MetronomeCore
    (audioContext m) (oscillator m) (gainNode m) (nextTickTime m) (lastTickTime m)
    (timeOffset m) (scheduleIntervalId m) (config m) (_isPlaying m) (_pulse m) (_meter
    m) (_bpm m) (_accents m) (stateChangeCallbacks m) v (trace m).

Definition with_trace (v : list Event) (m : MetronomeCore) : MetronomeCore :=
  Build_MetronomeCore
    (audioContext m) (oscillator m) (gainNode m) (nextTickTime m) (lastTickTime m)
    (timeOffset m) (scheduleIntervalId m) (config m) (_isPlaying m) (_pulse m) (_meter
    m) (_bpm m) (_accents m) (stateChangeCallbacks m) (tickCallbacks m) v.

Definition emit (e : Event) (m : MetronomeCore) : MetronomeCore :=
  with_trace (trace m ++ [e]) m.

(** ** Outcomes

    A method returns normally, throws (the object keeps the assignments made
    before the throw), or the interpreter runs out of fuel. *)

Inductive Outcome :=
| Ok (m : MetronomeCore)
| Throw (m : MetronomeCore)
| OutOfFuel.

Definition andThen (o : Outcome) (k : MetronomeCore -> Outcome) : Outcome :=
  match o with
  | Ok m => k m
  | Throw m => Throw m
  | OutOfFuel => OutOfFuel
  end.

Notation "o >>> k" := (andThen o k) (at level 50, left associativity).

(** ** The methods of the class

    Methods that notify are parameterised by [notifyStateChange]; [run] below
    ties the knot. *)

Definition Qltb (a b : Q) : bool := negb (Qle_bool b a).

(** [x !== null] *)
Definition notNull {A : Type} (x : option A) : bool :=
  match x with Some _ => true | None => false end.

(** [new Array(meter).fill(false)], then [accents[0] = true] when [meter > 0].
    [new Array(n)] throws a RangeError unless [0 <= n < 2^32]. *)
Definition createDefaultAccents (meter : Z) : option (list bool) :=
  if (0 <=? meter) && (meter <? 2 ^ 32) then
    let accents := replicate (Z.to_nat meter) false in
    Some (if 0 <? meter then <[0%nat := true]> accents else accents)
  else None.

Definition new_MetronomeCore (cfg : MetronomeConfig) : option MetronomeCore :=
  let _meter := default 4 (cfg_meter cfg) in
  _accents ← match cfg_accents cfg with
             | Some a => Some a
             | None => createDefaultAccents _meter
             end;
  Some {| audioContext := None; oscillator := false; gainNode := false;
          nextTickTime := 0; lastTickTime := 0; timeOffset := 0;
          scheduleIntervalId := None;
          config := {| lookahead := default 25%Q (cfg_lookahead cfg);
                       scheduleAheadTime := default (1 # 10)%Q (cfg_scheduleAheadTime cfg);
                       minBpm := default 30%Q (cfg_minBpm cfg);
                       maxBpm := default 300%Q (cfg_maxBpm cfg);
                       accentFrequency := default 1200%Q (cfg_accentFrequency cfg);
                       normalFrequency := default 800%Q (cfg_normalFrequency cfg) |};
          _isPlaying := false; _pulse := 0;
          _meter := _meter;
          _bpm := default 90%Q (cfg_bpm cfg);
          _accents := _accents;
          stateChangeCallbacks := []; tickCallbacks := [];
          trace := [] |}.

Definition emptyConfig : MetronomeConfig :=
  {| cfg_bpm := None; cfg_meter := None; cfg_accents := None; cfg_lookahead := None;
     cfg_scheduleAheadTime := None; cfg_minBpm := None; cfg_maxBpm := None;
     cfg_accentFrequency := None; cfg_normalFrequency := None |}.

(** [get state()] *)
Definition state (m : MetronomeCore) : MetronomeState :=
  {| isPlaying := _isPlaying m; pulse := _pulse m; meter := _meter m;
     bpm := _bpm m; accents := _accents m |}.

Section Methods.

Variable notifyStateChange : MetronomeCore -> Outcome.

(** [set bpm(value)] *)
Definition set_bpm (value : Q) (m : MetronomeCore) : Outcome :=
  notifyStateChange
    (with_bpm (Qmax (minBpm (config m)) (Qmin (maxBpm (config m)) value)) m).

(** [set meter(value)] *)
Definition set_meter (value : Z) (m : MetronomeCore) : Outcome :=
  if value <? 1 then Ok m
  else
    let m := with_meter value m in
    match createDefaultAccents value with
    | None => Throw m
    | Some a => notifyStateChange (with_accents a m)
    end.

(** [set accents(value)] *)
Definition set_accents (value : list bool) (m : MetronomeCore) : Outcome :=
  notifyStateChange (with_accents value m).

Definition increaseBpm (amount : Q) (m : MetronomeCore) : Outcome :=
  set_bpm (_bpm m + amount)%Q m.

Definition decreaseBpm (amount : Q) (m : MetronomeCore) : Outcome :=
  set_bpm (_bpm m - amount)%Q m.

Definition setMeter (meter : Z) (accents : option (list bool)) (m : MetronomeCore)
  : Outcome :=
  if meter <? 1 then Ok m
  else
    let m := with_meter meter m in
    match accents with
    | Some a => notifyStateChange (with_accents a m)
    | None =>
        match createDefaultAccents meter with
        | None => Throw m
        | Some a => notifyStateChange (with_accents a m)
        end
    end.

(** [this._accents[i]] for an in-range index. *)
Definition accentsInRange (beatIndex : Z) (m : MetronomeCore) : bool :=
  (0 <=? beatIndex) && (beatIndex <? Z.of_nat (length (_accents m))).

Definition toggleAccent (beatIndex : Z) (m : MetronomeCore) : Outcome :=
  if accentsInRange beatIndex m then
    let i := Z.to_nat beatIndex in
    notifyStateChange
      (with_accents (<[i := negb (default false (_accents m !! i))]> (_accents m)) m)
  else Ok m.

Definition setAccent (beatIndex : Z) (value : bool) (m : MetronomeCore) : Outcome :=
  if accentsInRange beatIndex m then
    notifyStateChange (with_accents (<[Z.to_nat beatIndex := value]> (_accents m)) m)
  else Ok m.

Definition cleanupAudioNodes (m : MetronomeCore) : MetronomeCore :=
  let m := if oscillator m then with_oscillator false (emit NodesReleased m) else m in
  if gainNode m then with_gainNode false m else m.

(** [stop()]; [now] is [audioContext.currentTime]. *)
Definition stop (now : Q) (m : MetronomeCore) : Outcome :=
  if negb (_isPlaying m) then Ok m
  else
    let m := with_pulse 0 (with_isPlaying false m) in
    let m := if notNull (audioContext m) then with_timeOffset (nextTickTime m - now)%Q m else m in
    let m := if notNull (scheduleIntervalId m)
             then with_scheduleIntervalId None (emit TimerCleared m) else m in
    notifyStateChange (cleanupAudioNodes m).

End Methods.

(** [Array.prototype.indexOf]: the first position of [cb], or [-1]. *)
Fixpoint indexOf (l : list Callback) (cb : Callback) : Z :=
  match l with
  | [] => -1
  | x :: l' =>
      if Nat.eqb x cb then 0
      else let i := indexOf l' cb in if i =? -1 then -1 else i + 1
  end.

(** [l.splice(index, 1)] under the guard [index > -1] of the unsubscribe
    closures. *)
Definition unsubscribe (cb : Callback) (l : list Callback) : list Callback :=
  let index := indexOf l cb in
  if -1 <? index then delete (Z.to_nat index) l else l.

(** [onStateChange(callback)]: the push; the closure it returns is
    [offStateChange]. *)
Definition onStateChange (cb : Callback) (m : MetronomeCore) : MetronomeCore :=
  with_stateChangeCallbacks (stateChangeCallbacks m ++ [cb]) m.

Definition offStateChange (cb : Callback) (m : MetronomeCore) : MetronomeCore :=
  with_stateChangeCallbacks (unsubscribe cb (stateChangeCallbacks m)) m.

Definition onTick (cb : Callback) (m : MetronomeCore) : MetronomeCore :=
  with_tickCallbacks (tickCallbacks m ++ [cb]) m.

Definition offTick (cb : Callback) (m : MetronomeCore) : MetronomeCore :=
  with_tickCallbacks (unsubscribe cb (tickCallbacks m)) m.

(** [initAudioContext()]: a context is created if there is none (taken in the
    state the autoplay policy gives it, suspended) and resumed if suspended. *)
Definition initAudioContext (m : MetronomeCore) : MetronomeCore :=
  let m := if notNull (audioContext m) then m else with_audioContext (Some Suspended) m in
  match audioContext m with
  | Some Suspended => with_audioContext (Some Running) m
  | _ => m
  end.

Definition createOscillator (m : MetronomeCore) : MetronomeCore :=
  if negb (notNull (audioContext m)) || oscillator m then m
  else emit NodesCreated (with_gainNode true (with_oscillator true m)).

(** [this._accents[i] ?? false] *)
Definition accentAt (accents : list bool) (i : Z) : bool :=
  if i <? 0 then false else default false (accents !! Z.to_nat i).

Definition playTick (time : Q) (m : MetronomeCore) : MetronomeCore :=
  if negb (notNull (audioContext m)) then m
  else
    let m := if negb (oscillator m) then createOscillator m else m in
    if negb (oscillator m) || negb (gainNode m) then m
    else
      let isAccented := accentAt (_accents m) (_pulse m - 1) in
      let frequency :=
        if isAccented then accentFrequency (config m) else normalFrequency (config m) in
      let m := emit (FrequencyAt frequency time) m in
      let attackTime := (1 # 1000)%Q in
      let decayTime := (5 # 100)%Q in
      let m := emit (GainCancelAt time) m in
      let m := emit (GainSetAt 0 time) m in
      let m := emit (GainLinearRampAt (15 # 10) (time + attackTime)) m in
      let m := emit (GainExponentialRampAt (1 # 100) (time + attackTime + decayTime)) m in
      emit (GainSetAt 0 (time + attackTime + decayTime + (1 # 100))) m.

Definition calculateInterval (m : MetronomeCore) : Q := (60 / _bpm m)%Q.

(** The advance of the pulse at the head of [tick]. *)
Definition advancePulse (m : MetronomeCore) : MetronomeCore :=
  if _meter m <=? _pulse m then with_pulse 1 m else with_pulse (_pulse m + 1) m.

(** ** Callbacks and the interpreter *)

(** The synchronous public interface, as a callback (or the user) calls it. *)
Inductive Call :=
| SetBpm (value : Q)
| SetMeterProp (value : Z)
| SetAccents (value : list bool)
| IncreaseBpm (amount : Q)
| DecreaseBpm (amount : Q)
| SetMeter (meter : Z) (accents : option (list bool))
| ToggleAccent (beatIndex : Z)
| SetAccent (beatIndex : Z) (value : bool)
| Stop
| OnStateChange (cb : Callback)
| OffStateChange (cb : Callback)
| OnTick (cb : Callback)
| OffTick (cb : Callback).

(** What the interpreter is running.  [StateLoop s i] and [TickLoop p a t i]
    are the [for ... of] loops of [notifyStateChange] and [tick] about to read
    position [i] of the live array; [WhileDue currentTime] is the [while] loop
    of [scheduleLoop]. *)
Inductive Task :=
| Invoke (c : Call)
| Body (p : list Call)
| StateLoop (s : MetronomeState) (i : nat)
| TickLoop (pulse : Z) (isAccented : bool) (time : Q) (i : nat)
| Tick (time : Q)
| WhileDue (currentTime : Q).

Section Interpreter.

Variable handlers : Callback -> CallbackArg -> list Call.

Fixpoint run (fuel : nat) (now : Q) (t : Task) (m : MetronomeCore) : Outcome :=
  match fuel with
  | O => OutOfFuel
  | S fuel =>
      (* notifyStateChange(): const state = this.state, then the loop *)
      let notifyStateChange m := run fuel now (StateLoop (state m) 0) m in
      match t with
      | Invoke c =>
          match c with
          | SetBpm value => set_bpm notifyStateChange value m
          | SetMeterProp value => set_meter notifyStateChange value m
          | SetAccents value => set_accents notifyStateChange value m
          | IncreaseBpm amount => increaseBpm notifyStateChange amount m
          | DecreaseBpm amount => decreaseBpm notifyStateChange amount m
          | SetMeter meter accents => setMeter notifyStateChange meter accents m
          | ToggleAccent beatIndex => toggleAccent notifyStateChange beatIndex m
          | SetAccent beatIndex value => setAccent notifyStateChange beatIndex value m
          | Stop => stop notifyStateChange now m
          | OnStateChange cb => Ok (onStateChange cb m)
          | OffStateChange cb => Ok (offStateChange cb m)
          | OnTick cb => Ok (onTick cb m)
          | OffTick cb => Ok (offTick cb m)
          end
      | Body [] => Ok m
      | Body (c :: p) => run fuel now (Invoke c) m >>> run fuel now (Body p)
      | StateLoop s i =>
          match stateChangeCallbacks m !! i with
          | None => Ok m
          | Some cb =>
              run fuel now (Body (handlers cb (StateArg s)))
                  (emit (Called cb (StateArg s)) m)
              >>> run fuel now (StateLoop s (S i))
          end
      | TickLoop pulse isAccented time i =>
          match tickCallbacks m !! i with
          | None => Ok m
          | Some cb =>
              let arg := TickArg pulse isAccented time in
              run fuel now (Body (handlers cb arg)) (emit (Called cb arg) m)
              >>> run fuel now (TickLoop pulse isAccented time (S i))
          end
      | Tick time =>
          let m := advancePulse m in
          let m := playTick time m in
          let isAccented := accentAt (_accents m) (_pulse m - 1) in
          run fuel now (TickLoop (_pulse m) isAccented time 0) m
          >>> notifyStateChange
      | WhileDue currentTime =>
          if Qltb (nextTickTime m) (currentTime + scheduleAheadTime (config m))
          then
            let tickTime := nextTickTime m in
            run fuel now (Tick tickTime) m
            >>> (fun m =>
                   let interval := calculateInterval m in
                   let m := with_nextTickTime (nextTickTime m + interval) m in
                   let m := with_lastTickTime tickTime m in
                   run fuel now (WhileDue currentTime) m)
          else Ok m
      end
  end.

Definition notifyStateChange (fuel : nat) (now : Q) (m : MetronomeCore) : Outcome :=
  run fuel now (StateLoop (state m) 0) m.

Definition tick (fuel : nat) (now : Q) (time : Q) (m : MetronomeCore) : Outcome :=
  run fuel now (Tick time) m.

(** [scheduleLoop()], run by [start] and by the timer it arms. *)
Definition scheduleLoop (fuel : nat) (now : Q) (m : MetronomeCore) : Outcome :=
  if negb (_isPlaying m) || negb (notNull (audioContext m)) then Ok m
  else
    let currentTime := now in
    run fuel now (WhileDue currentTime) m
    >>> (fun m =>
           let nextCheckTime :=
             Qmax 0 (lookahead (config m) - (currentTime - lastTickTime m) * 1000) in
           Ok (with_scheduleIntervalId (Some nextCheckTime)
                 (emit (TimerArmed nextCheckTime) m))).

(** [start()], with the [await] taken as completing at once: [now] is the
    clock when the body resumes. *)
Definition start (fuel : nat) (now : Q) (m : MetronomeCore) : Outcome :=
  if _isPlaying m then Ok m
  else
    let m := initAudioContext m in
    let m := with_isPlaying true m in
    let m := with_pulse 0 m in
    let m := with_nextTickTime (now + timeOffset m) m in
    scheduleLoop fuel now m >>> notifyStateChange fuel now.

Definition toggle (fuel : nat) (now : Q) (m : MetronomeCore) : Outcome :=
  if _isPlaying m then run fuel now (Invoke Stop) m else start fuel now m.

Definition handle (fuel : nat) (now : Q) (newBpm : option Q) (m : MetronomeCore)
  : Outcome :=
  let m := match newBpm with
           | Some v => with_bpm (Qmax (minBpm (config m)) (Qmin (maxBpm (config m)) v)) m
           | None => m
           end in
  toggle fuel now m.

Definition dispose (fuel : nat) (now : Q) (m : MetronomeCore) : Outcome :=
  run fuel now (Invoke Stop) m
  >>> (fun m =>
         let m := with_stateChangeCallbacks [] m in
         let m := with_tickCallbacks [] m in
         Ok (if notNull (audioContext m)
             then with_audioContext None (emit ContextClosed m) else m)).

End Interpreter.

(** ** Auxiliary definitions for the proofs *)

(** What a call does before it notifies: it returns at once, throws, or
    reaches [notifyStateChange()]. *)
Inductive Prep :=
| Return (m : MetronomeCore)
| Raise (m : MetronomeCore)
| Notify (m : MetronomeCore).

Definition clampBpm (m : MetronomeCore) (value : Q) : Q :=
  Qmax (minBpm (config m)) (Qmin (maxBpm (config m)) value).

Definition stopped (now : Q) (m : MetronomeCore) : MetronomeCore :=
  let m := with_pulse 0 (with_isPlaying false m) in
  let m := if notNull (audioContext m) then with_timeOffset (nextTickTime m - now)%Q m else m in
  let m := if notNull (scheduleIntervalId m)
           then with_scheduleIntervalId None (emit TimerCleared m) else m in
  cleanupAudioNodes m.

Definition prepare (now : Q) (c : Call) (m : MetronomeCore) : Prep :=
  match c with
  | SetBpm value => Notify (with_bpm (clampBpm m value) m)
  | SetMeterProp value | SetMeter value None =>
      if value <? 1 then Return m
      else match createDefaultAccents value with
           | None => Raise (with_meter value m)
           | Some a => Notify (with_accents a (with_meter value m))
           end
  | SetAccents value => Notify (with_accents value m)
  | IncreaseBpm amount => Notify (with_bpm (clampBpm m (_bpm m + amount)%Q) m)
  | DecreaseBpm amount => Notify (with_bpm (clampBpm m (_bpm m - amount)%Q) m)
  | SetMeter meter (Some a) =>
      if meter <? 1 then Return m else Notify (with_accents a (with_meter meter m))
  | ToggleAccent beatIndex =>
      if accentsInRange beatIndex m then
        let i := Z.to_nat beatIndex in
        Notify (with_accents
                  (<[i := negb (default false (_accents m !! i))]> (_accents m)) m)
      else Return m
  | SetAccent beatIndex value =>
      if accentsInRange beatIndex m then
        Notify (with_accents (<[Z.to_nat beatIndex := value]> (_accents m)) m)
      else Return m
  | Stop => if negb (_isPlaying m) then Return m else Notify (stopped now m)
  | OnStateChange cb => Return (onStateChange cb m)
  | OffStateChange cb => Return (offStateChange cb m)
  | OnTick cb => Return (onTick cb m)
  | OffTick cb => Return (offTick cb m)
  end.

(** The target times handed to the oscillator, in order. *)
Fixpoint scheduledTimes (evs : list Event) : list Q :=
  match evs with
  | [] => []
  | FrequencyAt _ time :: evs => time :: scheduledTimes evs
  | _ :: evs => scheduledTimes evs
  end.

(** [n] times starting at [t], [step] apart. *)
Fixpoint progression (t step : Q) (n : nat) : list Q :=
  match n with
  | O => []
  | S n => t :: progression (t + step) step n
  end.

(** The result of an outcome that is not out of fuel. *)
Definition final (o : Outcome) : option MetronomeCore :=
  match o with
  | Ok m | Throw m => Some m
  | OutOfFuel => None
  end.


(** A callback is called only while it sits in the registry the loop reads. *)
Definition registered (cb : Callback) (arg : CallbackArg) (m : MetronomeCore) : Prop :=
  match arg with
  | TickArg _ _ _ => cb ∈ tickCallbacks m
  | StateArg _ => cb ∈ stateChangeCallbacks m
  end.

(** Tasks a callback (or the user) can start, all of whose calls are [allowed]. *)
Definition admissible (allowed : Call -> Prop) (t : Task) : Prop :=
  match t with
  | Invoke c => allowed c
  | Body p => Forall allowed p
  | StateLoop _ _ | TickLoop _ _ _ _ => True
  | Tick _ | WhileDue _ => False
  end.

(** An outcome related to the object it started from: by [R] when the task
    returned, by [T] when it threw. *)
Definition related (R T : MetronomeCore -> MetronomeCore -> Prop)
  (m : MetronomeCore) (o : Outcome) : Prop :=
  match o with
  | Ok m' => R m m'
  | Throw m' => T m m'
  | OutOfFuel => True
  end.

Definition writesBpm (c : Call) : bool :=
  match c with
  | SetBpm _ | IncreaseBpm _ | DecreaseBpm _ => true
  | _ => false
  end.

(** [new Array(meter)] is the only throw of the class. *)
Definition mayThrow (c : Call) : bool :=
  match c with
  | SetMeterProp v | SetMeter v None => (1 <=? v) && negb (v <? 2 ^ 32)
  | _ => false
  end.

(** [t] after [n] steps, added one at a time as the loop does. *)
Fixpoint after (t step : Q) (n : nat) : Q :=
  match n with
  | O => t
  | S n => after (t + step) step n
  end.

(** What no callback-level task touches. *)
Record Frame (m m' : MetronomeCore) : Prop := {
  frame_nextTickTime : nextTickTime m' = nextTickTime m;
  frame_lastTickTime : lastTickTime m' = lastTickTime m;
  frame_config : config m' = config m;
  frame_audioContext : audioContext m' = audioContext m;
  frame_trace : exists evs, trace m' = trace m ++ evs /\ scheduledTimes evs = [];
  frame_nodes : oscillator m = gainNode m -> oscillator m' = gainNode m';
  frame_pulse : _pulse m' = _pulse m \/ _pulse m' = 0;
  frame_stopped : _isPlaying m = false ->
                  _isPlaying m' = false /\ timeOffset m' = timeOffset m /\
                  _pulse m' = _pulse m
}.

(** What one [tick(time)] does to the fields the loop reads. *)
Record Ticked (time : Q) (m m' : MetronomeCore) : Prop := {
  ticked_nextTickTime : nextTickTime m' = nextTickTime m;
  ticked_lastTickTime : lastTickTime m' = lastTickTime m;
  ticked_config : config m' = config m;
  ticked_audioContext : audioContext m' = audioContext m;
  ticked_nodes : oscillator m' = gainNode m';
  ticked_times : scheduledTimes (trace m') = scheduledTimes (trace m) ++ [time]
}.

(** *** Observers that never call back *)

Definition notifiedTick (pulse : Z) (isAccented : bool) (time : Q) (m : MetronomeCore)
  : MetronomeCore :=
  with_trace
    (trace m ++ map (fun cb => Called cb (TickArg pulse isAccented time)) (tickCallbacks m))
    m.

Definition notifiedState (m : MetronomeCore) : MetronomeCore :=
  with_trace
    (trace m ++ map (fun cb => Called cb (StateArg (state m))) (stateChangeCallbacks m)) m.

(** [tick(time)] when the observers only observe. *)
Definition ticked (time : Q) (m : MetronomeCore) : MetronomeCore :=
  let m := playTick time (advancePulse m) in
  let isAccented := accentAt (_accents m) (_pulse m - 1) in
  notifiedState (notifiedTick (_pulse m) isAccented time m).

(** One turn of the [while] loop, and [n] of them. *)
Definition scheduled (m : MetronomeCore) : MetronomeCore :=
  let tickTime := nextTickTime m in
  let m := ticked tickTime m in
  with_lastTickTime tickTime (with_nextTickTime (nextTickTime m + calculateInterval m) m).

Fixpoint scheduledN (n : nat) (m : MetronomeCore) : MetronomeCore :=
  match n with
  | O => m
  | S n => scheduledN n (scheduled m)
  end.

Definition fuelFor (m : MetronomeCore) (n : nat) : nat :=
  n + length (stateChangeCallbacks m) + length (tickCallbacks m) + 4.


(** The times a tick callback was called with. *)
Fixpoint tickTimes (cb : Callback) (evs : list Event) : list Q :=
  match evs with
  | [] => []
  | Called c (TickArg _ _ time) :: evs =>
      if Nat.eqb c cb then time :: tickTimes cb evs else tickTimes cb evs
  | _ :: evs => tickTimes cb evs
  end.

Fixpoint occurrences (cb : Callback) (l : list Callback) : nat :=
  match l with
  | [] => 0
  | c :: l => if Nat.eqb c cb then S (occurrences cb l) else occurrences cb l
  end.


(** What one turn of the loop leaves as it was, and what it writes. *)
Record Scheduled (m m' : MetronomeCore) : Prop := {
  sch_nextTickTime : nextTickTime m' = (nextTickTime m + 60 / _bpm m)%Q;
  sch_lastTickTime : lastTickTime m' = nextTickTime m;
  sch_config : config m' = config m;
  sch_bpm : _bpm m' = _bpm m;
  sch_meter : _meter m' = _meter m;
  sch_accents : _accents m' = _accents m;
  sch_stateChangeCallbacks : stateChangeCallbacks m' = stateChangeCallbacks m;
  sch_tickCallbacks : tickCallbacks m' = tickCallbacks m;
  sch_audioContext : audioContext m' = audioContext m;
  sch_isPlaying : _isPlaying m' = _isPlaying m;
  sch_timeOffset : timeOffset m' = timeOffset m;
  sch_pulse : _pulse m' = if _meter m <=? _pulse m then 1 else _pulse m + 1
}.


(** ** Runs, and the vocabulary of the properties *)

(** What happens to a metronome from outside: the timer armed by
    [scheduleLoop] fires, or the user makes a call. *)
Inductive Action :=
| TimerFires (now : Q)
| UserCalls (now : Q) (c : Call).

Definition actionKeepsBpm (a : Action) : Prop :=
  match a with
  | TimerFires _ => True
  | UserCalls _ c => writesBpm c = false
  end.

Section Runs.

Variable handlers : Callback -> CallbackArg -> list Call.

Definition act (fuel : nat) (a : Action) (m : MetronomeCore) : Outcome :=
  match a with
  | TimerFires now => scheduleLoop handlers fuel now m
  | UserCalls now c => run handlers fuel now (Invoke c) m
  end.

Fixpoint perform (fuel : nat) (acts : list Action) (m : MetronomeCore) : Outcome :=
  match acts with
  | [] => Ok m
  | a :: acts => act fuel a m >>> perform fuel acts
  end.

(** [tick] called once for each of [times]. *)
Fixpoint tickN (fuel : nat) (now : Q) (times : list Q) (m : MetronomeCore) : Outcome :=
  match times with
  | [] => Ok m
  | time :: times => run handlers fuel now (Tick time) m >>> tickN fuel now times
  end.

End Runs.

(** The events appended to the trace between [m] and [m']. *)
Definition since (m m' : MetronomeCore) : list Event :=
  drop (length (trace m)) (trace m').

(** The advance of the pulse as the code computes it, and as the
    specification words it. *)
Definition nextPulse (pulse meter : Z) : Z :=
  if meter <=? pulse then 1 else pulse + 1.

Definition claimedNextPulse (pulse meter : Z) : Z :=
  if pulse =? meter then 1 else pulse + 1.

Definition bpmInRange (m : MetronomeCore) : Prop :=
  (minBpm (config m) <= _bpm m)%Q /\ (_bpm m <= maxBpm (config m))%Q.

Definition accentsMatchMeter (m : MetronomeCore) : Prop :=
  Z.of_nat (length (_accents m)) = _meter m.

(** Calls that leave [accents.length == meter] standing whatever the object. *)
Definition keepsLength (c : Call) : Prop :=
  match c with
  | SetAccents _ => False
  | SetMeter meter (Some a) => 1 <= meter -> Z.of_nat (length a) = meter
  | _ => True
  end.

(** The same for a call made on [m]: the accents setter keeps the invariant
    when it is given an array of the current length. *)
Definition keepsLengthAt (m : MetronomeCore) (c : Call) : Prop :=
  match c with
  | SetAccents a => Z.of_nat (length a) = _meter m
  | _ => keepsLength c
  end.

(** The payload of a tick that is not accented. *)
Definition unaccented (normal : Q) (e : Event) : Prop :=
  match e with
  | FrequencyAt f _ => f = normal
  | Called _ (TickArg _ isAccented _) => isAccented = false
  | _ => True
  end.

(** *** Concrete objects *)

(** [new MetronomeCore()] *)
Definition defaultMetronome : MetronomeCore :=
  {| audioContext := None; oscillator := false; gainNode := false;
     nextTickTime := 0; lastTickTime := 0; timeOffset := 0;
     scheduleIntervalId := None;
     config := {| lookahead := 25; scheduleAheadTime := 1 # 10; minBpm := 30;
                  maxBpm := 300; accentFrequency := 1200; normalFrequency := 800 |};
     _isPlaying := false; _pulse := 0; _meter := 4; _bpm := 90;
     _accents := [true; false; false; false];
     stateChangeCallbacks := []; tickCallbacks := []; trace := [] |}.

(** [{ bpm: b }] *)
Definition configWithBpm (b : Q) : MetronomeConfig :=
  {| cfg_bpm := Some b; cfg_meter := None; cfg_accents := None; cfg_lookahead := None;
     cfg_scheduleAheadTime := None; cfg_minBpm := None; cfg_maxBpm := None;
     cfg_accentFrequency := None; cfg_normalFrequency := None |}.

(** Observers that only observe. *)
Definition observers : Callback -> CallbackArg -> list Call := fun _ _ => [].

(** Callback [1] unsubscribes itself from the ticks the first time it is
    called (a one-shot listener); every other callback only observes. *)
Definition oneShot : Callback -> CallbackArg -> list Call :=
  fun cb arg =>
    match cb, arg with
    | 1%nat, TickArg _ _ _ => [OffTick 1%nat]
    | _, _ => []
    end.

(** A playing metronome at 300 bpm with a live context, as [start] leaves it
    before it enters [scheduleLoop] at clock time [0]. *)
Definition fastMetronome : MetronomeCore :=
  with_bpm 300 (with_isPlaying true (with_audioContext (Some Running)
    (with_tickCallbacks [7%nat] defaultMetronome))).

(** The same with an accents array of length 1 and the pulse at 2: the next
    tick advances to pulse 3 and reads [accents[2]]. *)
Definition shortAccents : MetronomeCore :=
  with_pulse 2 (with_accents [true] fastMetronome).

(** The default metronome started at clock time 0 and polled at time 2 (four
    ticks scheduled, pulse 4), whose meter the user then sets to 2. *)
Definition meterShrunk : Outcome :=
  start observers 20 0 defaultMetronome
  >>> perform observers 20 [TimerFires 2; UserCalls (21 # 10) (SetMeter 2 None)].

(** Between [m] and [m'] the loop made [n] turns at the tempo of [m]. *)
Definition Progressed (m m' : MetronomeCore) (n : nat) : Prop :=
  scheduledTimes (trace m') =
    scheduledTimes (trace m) ++ progression (nextTickTime m) (60 / _bpm m) n /\
  nextTickTime m' = after (nextTickTime m) (60 / _bpm m) n /\
  _bpm m' = _bpm m /\
  oscillator m' = gainNode m'.

(** The assignments of [start] before it enters [scheduleLoop]. *)
Definition starting (now : Q) (m : MetronomeCore) : MetronomeCore :=
  let m := initAudioContext m in
  let m := with_isPlaying true m in
  let m := with_pulse 0 m in
  with_nextTickTime (now + timeOffset m) m.

(** Callback [1] sets the tempo to 180 on every tick. *)
Definition retimer : Callback -> CallbackArg -> list Call :=
  fun cb arg =>
    match cb, arg with
    | 1%nat, TickArg _ _ _ => [SetBpm 180]
    | _, _ => []
    end.

(** The outcome of a step of a run under a fixed tempo: the turns made are
    recorded even when the step throws. *)
Definition progressed (m : MetronomeCore) (o : Outcome) : Prop :=
  match o with
  | Ok m' => exists n, Progressed m m' n
  | Throw m' =>
      exists n, scheduledTimes (trace m') =
                scheduledTimes (trace m) ++ progression (nextTickTime m) (60 / _bpm m) n
  | OutOfFuel => True
  end.

(** The playing metronome with callback [1] as its only tick callback. *)
Definition retimed : MetronomeCore := with_tickCallbacks [1%nat] fastMetronome.

(** The playing metronome with its next tick due at 7/20 s. *)
Definition aboutToTick : MetronomeCore := with_nextTickTime (7 # 20) fastMetronome.

(** The default metronome after [onTick(cb1)] and [onTick(cb2)]. *)
Definition twoListeners : MetronomeCore := onTick 2%nat (onTick 1%nat defaultMetronome).

(** ** Vocabulary of the further properties *)

(** The callbacks called, in order, with what they were given. *)
Fixpoint calls (evs : list Event) : list (Callback * CallbackArg) :=
  match evs with
  | [] => []
  | Called cb arg :: evs => (cb, arg) :: calls evs
  | _ :: evs => calls evs
  end.

(** Calls that register a callback. *)
Definition subscribes (c : Call) : bool :=
  match c with
  | OnTick _ | OnStateChange _ => true
  | _ => false
  end.

(** The audio calls of one click, as [playTick] makes them. *)
Definition click (frequency time : Q) : list Event :=
  [FrequencyAt frequency time;
   GainCancelAt time;
   GainSetAt 0 time;
   GainLinearRampAt (15 # 10) (time + (1 # 1000));
   GainExponentialRampAt (1 # 100) (time + (1 # 1000) + (5 # 100));
   GainSetAt 0 (time + (1 # 1000) + (5 # 100) + (1 # 100))].

(** Live oscillator/gain pairs according to the trace: created minus released. *)
Fixpoint liveNodes (evs : list Event) : Z :=
  match evs with
  | [] => 0
  | NodesCreated :: evs => liveNodes evs + 1
  | NodesReleased :: evs => liveNodes evs - 1
  | _ :: evs => liveNodes evs
  end.

(** [{ meter: v }] *)
Definition configWithMeter (v : Z) : MetronomeConfig :=
  {| cfg_bpm := None; cfg_meter := Some v; cfg_accents := None; cfg_lookahead := None;
     cfg_scheduleAheadTime := None; cfg_minBpm := None; cfg_maxBpm := None;
     cfg_accentFrequency := None; cfg_normalFrequency := None |}.

(** [{ minBpm: 200, maxBpm: 100 }]: bounds the wrong way round. *)
Definition invertedBounds : MetronomeConfig :=
  {| cfg_bpm := None; cfg_meter := None; cfg_accents := None; cfg_lookahead := None;
     cfg_scheduleAheadTime := None; cfg_minBpm := Some 200%Q; cfg_maxBpm := Some 100%Q;
     cfg_accentFrequency := None; cfg_normalFrequency := None |}.

(** The default metronome with state callbacks [3] and [4] and tick callback
    [7]. *)
Definition observed : MetronomeCore :=
  onTick 7%nat (onStateChange 4%nat (onStateChange 3%nat defaultMetronome)).

(** The two registries, by the kind of callback: [true] for tick callbacks,
    [false] for state-change callbacks. *)
Definition registry (tickKind : bool) (m : MetronomeCore) : list Callback :=
  if tickKind then tickCallbacks m else stateChangeCallbacks m.

(** The number of times [cb] was called as a callback of the given kind. *)
Fixpoint timesCalled (tickKind : bool) (cb : Callback) (evs : list Event) : nat :=
  match evs with
  | [] => 0
  | Called c arg :: evs =>
      let same := match arg with TickArg _ _ _ => tickKind | StateArg _ => negb tickKind end in
      if Nat.eqb c cb && same then S (timesCalled tickKind cb evs)
      else timesCalled tickKind cb evs
  | _ :: evs => timesCalled tickKind cb evs
  end.

(** The call that registers [cb] in the registry of the given kind, and the
    one that makes the unsubscribe function it returned. *)
Definition subscribeCall (tickKind : bool) (cb : Callback) : Call :=
  if tickKind then OnTick cb else OnStateChange cb.

Definition unsubscribeCall (tickKind : bool) (cb : Callback) : Call :=
  if tickKind then OffTick cb else OffStateChange cb.

(** Actions other than registering [cb] again. *)
Definition leavesOut (tickKind : bool) (cb : Callback) (a : Action) : Prop :=
  match a with
  | TimerFires _ => True
  | UserCalls _ c => c <> subscribeCall tickKind cb
  end.

(** Once [cb] is out of a registry it stays out and is not called. *)
Definition silent (tickKind : bool) (cb : Callback) (m m' : MetronomeCore) : Prop :=
  (cb ∉ registry tickKind m) ->
  (cb ∉ registry tickKind m') /\
  timesCalled tickKind cb (trace m') = timesCalled tickKind cb (trace m).

(** Tick callback [1] stops the metronome when it is called; every other
    callback only observes. *)
Definition stopper : Callback -> CallbackArg -> list Call :=
  fun cb arg =>
    match cb, arg with
    | 1%nat, TickArg _ _ _ => [Stop]
    | _, _ => []
    end.

(** Everything the user and the timer can do to a metronome. *)
Inductive Step :=
| Does (a : Action)
| Starts (now : Q)
| Toggles (now : Q)
| Handles (now : Q) (newBpm : option Q)
| Disposes (now : Q).

Section Scripts.

Variable handlers : Callback -> CallbackArg -> list Call.

Definition step (fuel : nat) (s : Step) (m : MetronomeCore) : Outcome :=
  match s with
  | Does a => act handlers fuel a m
  | Starts now => start handlers fuel now m
  | Toggles now => toggle handlers fuel now m
  | Handles now newBpm => handle handlers fuel now newBpm m
  | Disposes now => dispose handlers fuel now m
  end.

Fixpoint drive (fuel : nat) (steps : list Step) (m : MetronomeCore) : Outcome :=
  match steps with
  | [] => Ok m
  | s :: steps => step fuel s m >>> drive fuel steps
  end.

End Scripts.

(** The object holds an oscillator exactly when it holds a gain node, and
    exactly when the trace has one more pair created than released. *)
Definition nodesBalanced (m : MetronomeCore) : Prop :=
  oscillator m = gainNode m /\
  liveNodes (trace m) = if oscillator m then 1 else 0.

(** The state [dispose()] leaves. *)
Definition disposed (m : MetronomeCore) : Prop :=
  _isPlaying m = false /\ audioContext m = None /\
  stateChangeCallbacks m = [] /\ tickCallbacks m = [].

(** [o], if it produced an object, produced one that satisfies [P]. *)
Definition keeps (P : MetronomeCore -> Prop) (o : Outcome) : Prop :=
  forall m', final o = Some m' -> P m'.

(** Callback-level tasks keep the nodes balanced and create none. *)
Definition nodesKept (m m' : MetronomeCore) : Prop :=
  nodesBalanced m ->
  nodesBalanced m' /\ (oscillator m = false -> oscillator m' = false).

(** The tail of [dispose()], after its [stop()]. *)
Definition cleared (m : MetronomeCore) : MetronomeCore :=
  let m := with_stateChangeCallbacks [] m in
  let m := with_tickCallbacks [] m in
  if notNull (audioContext m)
  then with_audioContext None (emit ContextClosed m) else m.

(** Ordered bounds, fixed by [c], with the tempo between them. *)
Definition tempoWithin (c : Config) (m : MetronomeCore) : Prop :=
  config m = c /\ (minBpm c <= maxBpm c)%Q /\ bpmInRange m.

(** [new MetronomeCore({ bpm: 500 })] as the constructor leaves it. *)
Definition tooFast : MetronomeCore := with_bpm 500 defaultMetronome.

(** What callback-level tasks leave alone while the metronome is stopped. *)
Definition idle (m m' : MetronomeCore) : Prop :=
  _isPlaying m = false ->
  _isPlaying m' = false /\ scheduleIntervalId m' = scheduleIntervalId m /\
  oscillator m' = oscillator m /\ gainNode m' = gainNode m /\
  liveNodes (trace m') = liveNodes (trace m).

(** [{ meter: v, accents: a }] *)
Definition configWithAccents (v : Z) (a : list bool) : MetronomeConfig :=
  {| cfg_bpm := None; cfg_meter := Some v; cfg_accents := Some a; cfg_lookahead := None;
     cfg_scheduleAheadTime := None; cfg_minBpm := None; cfg_maxBpm := None;
     cfg_accentFrequency := None; cfg_normalFrequency := None |}.

(** A metronome that its tick callback stopped during a pass with two ticks
    due: the second tick re-created the nodes, and the pass re-armed the
    timer. *)
Definition stoppedByCallback : MetronomeCore :=
  default defaultMetronome
    (final (drive stopper 30
              [Handles 0 (Some 300%Q); Does (UserCalls 0 (OnTick 1%nat));
               Does (TimerFires (1 # 2))] defaultMetronome)).
(** ** The interpreter: unfolding and fuel *)

Section RunFacts.

Variable handlers : Callback -> CallbackArg -> list Call.
Local Abbreviation exec := (run handlers).

Lemma run_Invoke fuel now c m :
  exec (S fuel) now (Invoke c) m =
  match prepare now c m with
  | Return m' => Ok m'
  | Raise m' => Throw m'
  | Notify m' => exec fuel now (StateLoop (state m') 0) m'
  end.
Proof.
  destruct c as [| | | | |? [a|]| | | | | | |]; cbn [run prepare];
    unfold set_bpm, set_meter, set_accents, increaseBpm, decreaseBpm, setMeter,
      toggleAccent, setAccent, stop, set_bpm, clampBpm, stopped;
    repeat match goal with
           | |- context [if ?b then _ else _] => destruct b
           | |- context [match createDefaultAccents ?v with _ => _ end] =>
               destruct (createDefaultAccents v)
           end; reflexivity.
Qed.

Lemma andThen_mono (o1 o1' : Outcome) (k k' : MetronomeCore -> Outcome) :
  (o1 <> OutOfFuel -> o1' = o1) ->
  (forall m, k m <> OutOfFuel -> k' m = k m) ->
  o1 >>> k <> OutOfFuel -> o1' >>> k' = o1 >>> k.
Proof.
  intros H1 Hk H. destruct o1 as [m|m|]; cbn in *; try congruence.
  - rewrite H1 by discriminate. cbn. auto.
  - rewrite H1 by discriminate. reflexivity.
Qed.

Lemma run_mono fuel : forall fuel' now t m,
  (fuel <= fuel')%nat ->
  exec fuel now t m <> OutOfFuel ->
  exec fuel' now t m = exec fuel now t m.
Proof.
  induction fuel as [|fuel IH]; intros fuel' now t m Hle H; [cbn in H; congruence|].
  destruct fuel' as [|fuel']; [lia|].
  assert (Hf : (fuel <= fuel')%nat) by lia.
  destruct t as [c|[|c p]|s i|p a time i|time|ct].
  - rewrite !run_Invoke in *. destruct (prepare now c m); auto.
  - reflexivity.
  - cbn [run] in *. apply andThen_mono; auto.
  - cbn [run] in *. destruct (stateChangeCallbacks m !! i); auto.
    apply andThen_mono; auto.
  - cbn [run] in *. destruct (tickCallbacks m !! i); auto.
    apply andThen_mono; auto.
  - cbn [run] in *. apply andThen_mono; auto.
  - cbn [run] in *.
    destruct (Qltb _ _); auto. apply andThen_mono; auto.
Qed.

End RunFacts.
(** ** A proof rule for whatever callbacks can run

    Tasks other than [Tick] and [WhileDue] are the ones a callback (or the
    user) can start.  If every call in [allowed] relates the object before to
    the object after by [R] up to its notification (by [T] when it throws), and
    the handlers only make allowed calls, then every such task that returns
    relates start to end by [R], and every one that throws by [T]. *)

Section Rule.

Variable handlers : Callback -> CallbackArg -> list Call.
Variable now : Q.
Variable allowed : Call -> Prop.
Variable R : MetronomeCore -> MetronomeCore -> Prop.
Variable T : MetronomeCore -> MetronomeCore -> Prop.

Hypothesis handlers_allowed : forall cb arg, Forall allowed (handlers cb arg).
Hypothesis R_refl : forall m, R m m.
Hypothesis R_trans : forall m1 m2 m3, R m1 m2 -> R m2 m3 -> R m1 m3.
Hypothesis T_after : forall m1 m2 m3, R m1 m2 -> T m2 m3 -> T m1 m3.
Hypothesis R_prepare : forall c m, allowed c ->
  match prepare now c m with
  | Return m' | Notify m' => R m m'
  | Raise m' => T m m'
  end.
Hypothesis R_called : forall cb arg m,
  registered cb arg m -> R m (emit (Called cb arg) m).

Local Abbreviation related := (related R T).
Local Abbreviation admissible := (admissible allowed).

Lemma related_andThen m o k :
  related m o -> (forall m', R m m' -> related m' (k m')) -> related m (o >>> k).
Proof.
  intros Ho Hk. destruct o as [m'|m'|]; cbn in *; auto.
  specialize (Hk m' Ho). destruct (k m'); cbn in *; intuition eauto.
Qed.

Lemma related_step m m' o : R m m' -> related m' o -> related m o.
Proof. intros H Ho. destruct o; cbn in *; intuition eauto. Qed.

Lemma run_rule fuel : forall t m,
  admissible t -> related m (run handlers fuel now t m).
Proof.
  induction fuel as [|fuel IH]; intros t m Ht; [exact I|].
  destruct t as [c|[|c p]|s i|p a time i|time|ct]; cbn in Ht; try contradiction.
  - rewrite run_Invoke. specialize (R_prepare c m Ht).
    destruct (prepare now c m); cbn; auto.
    eapply related_step; [exact R_prepare|]. apply IH. exact I.
  - cbn. apply R_refl.
  - cbn [run]. inversion Ht; subst.
    apply related_andThen; [apply IH; assumption|].
    intros m' _. apply IH. assumption.
  - cbn [run]. destruct (stateChangeCallbacks m !! i) as [cb|] eqn:E; [|cbn; apply R_refl].
    apply related_andThen.
    + eapply related_step;
        [apply (R_called cb (StateArg s)); cbn; eapply list_elem_of_lookup_2; eassumption|].
      apply IH. apply handlers_allowed.
    + intros m' _. apply IH. exact I.
  - cbn [run]. destruct (tickCallbacks m !! i) as [cb|] eqn:E; [|cbn; apply R_refl].
    apply related_andThen.
    + eapply related_step;
        [apply (R_called cb (TickArg p a time)); cbn; eapply list_elem_of_lookup_2; eassumption|].
      apply IH. apply handlers_allowed.
    + intros m' _. apply IH. exact I.
Qed.

End Rule.
Lemma scheduledTimes_app a b :
  scheduledTimes (a ++ b) = scheduledTimes a ++ scheduledTimes b.
Proof.
  induction a as [|e a IH]; [reflexivity|].
  destruct e; cbn; rewrite ?IH; reflexivity.
Qed.

Lemma Qltb_lt a b : Qltb a b = true <-> (a < b)%Q.
Proof.
  unfold Qltb. rewrite negb_true_iff. split.
  - intros H. apply Qnot_le_lt. intros Hle. apply Qle_bool_iff in Hle. congruence.
  - intros H. destruct (Qle_bool b a) eqn:E; [|reflexivity].
    apply Qle_bool_iff in E. exfalso. eapply Qlt_not_le; eauto.
Qed.

Lemma Qltb_ge a b : Qltb a b = false <-> (b <= a)%Q.
Proof.
  unfold Qltb. rewrite negb_false_iff. apply Qle_bool_iff.
Qed.

Lemma Frame_refl m : Frame m m.
Proof.
  split; auto. exists []. rewrite app_nil_r. auto.
Qed.

Lemma Frame_trans m1 m2 m3 : Frame m1 m2 -> Frame m2 m3 -> Frame m1 m3.
Proof.
  intros [a1 b1 c1 d1 (e1 & t1 & s1) n1 p1 q1] [a2 b2 c2 d2 (e2 & t2 & s2) n2 p2 q2].
  split; try congruence; auto.
  - exists (e1 ++ e2). rewrite t2, t1, <- app_assoc, scheduledTimes_app, s1, s2. auto.
  - destruct p2 as [p2|p2]; [rewrite p2; auto|auto].
  - intros H. destruct (q1 H) as (i1 & o1 & u1). destruct (q2 i1) as (i2 & o2 & u2).
    repeat split; congruence.
Qed.

Ltac frame_trace :=
  first [ exists []; rewrite app_nil_r; split; reflexivity
        | eexists; split; [rewrite <- ?app_assoc; reflexivity | reflexivity] ].

Lemma Frame_emit_quiet e m : scheduledTimes [e] = [] -> Frame m (emit e m).
Proof.
  intros H. split; cbn; auto. exists [e]. auto.
Qed.

Lemma Frame_prepare now c m :
  match prepare now c m with
  | Return m' | Notify m' | Raise m' => Frame m m'
  end.
Proof.
  destruct c as [| | | | |? [a|]| | | | | | |]; cbn [prepare];
    repeat match goal with
           | |- context [if ?b then _ else _] => destruct b eqn:?
           | |- context [match createDefaultAccents ?v with _ => _ end] =>
               destruct (createDefaultAccents v)
           end;
    try apply Frame_refl; try (split; cbn; auto; frame_trace).
  (* stop *)
  apply negb_false_iff in Heqb.
  unfold stopped, cleanupAudioNodes.
  repeat (cbn; match goal with
               | |- context [if ?b then _ else _] => destruct b eqn:?
               end);
    split; cbn; auto; try congruence; try frame_trace.
Qed.

Section FrameFacts.

Variable handlers : Callback -> CallbackArg -> list Call.
Variable now : Q.

Lemma run_frame fuel t m :
  admissible (fun _ => True) t ->
  match final (run handlers fuel now t m) with
  | Some m' => Frame m m'
  | None => True
  end.
Proof.
  intros Ht.
  assert (L : related Frame Frame m (run handlers fuel now t m)).
  { apply run_rule with (allowed := fun _ => True); auto.
    - intros; apply Forall_forall; auto.
    - apply Frame_refl.
    - apply Frame_trans.
    - apply Frame_trans.
    - intros c m0 _. pose proof (Frame_prepare now c m0). destruct (prepare now c m0); auto.
    - intros. apply Frame_emit_quiet. reflexivity. }
  destruct (run handlers fuel now t m); cbn in *; auto.
Qed.

End FrameFacts.
Lemma final_andThen o k m' :
  final (o >>> k) = Some m' ->
  o = Throw m' \/ exists m1, o = Ok m1 /\ final (k m1) = Some m'.
Proof.
  destruct o as [m1|m1|]; cbn; intros H; [right; eauto|left; congruence|discriminate].
Qed.

Lemma progression_app t step n k :
  progression t step (n + k) = progression t step n ++ progression (after t step n) step k.
Proof.
  revert t. induction n as [|n IH]; intros t; cbn; [reflexivity|]. rewrite IH. reflexivity.
Qed.

Lemma after_add t step n k : after t step (n + k) = after (after t step n) step k.
Proof. revert t. induction n as [|n IH]; intros t; cbn; auto. Qed.

Lemma after_S t step n : after t step (S n) = (after t step n + step)%Q.
Proof. revert t. induction n as [|n IH]; intros t; cbn; auto. rewrite <- IH. reflexivity. Qed.

Lemma length_progression t step n : length (progression t step n) = n.
Proof. revert t. induction n as [|n IH]; intros t; cbn; auto. Qed.

Lemma progression_lookup t step n i :
  (i < n)%nat -> progression t step n !! i = Some (after t step i).
Proof.
  revert t i. induction n as [|n IH]; intros t [|i] H; cbn; try lia; auto.
  apply IH. lia.
Qed.

Lemma after_Qeq t step n : (after t step n == t + inject_Z (Z.of_nat n) * step)%Q.
Proof.
  revert t. induction n as [|n IH]; intros t.
  - cbn. ring.
  - cbn [after]. rewrite IH. rewrite Nat2Z.inj_succ. unfold Z.succ.
    rewrite inject_Z_plus. ring.
Qed.

Lemma playTick_effect time m :
  notNull (audioContext m) = true -> oscillator m = gainNode m ->
  Ticked time m (playTick time m) /\ _pulse (playTick time m) = _pulse m /\
  _bpm (playTick time m) = _bpm m.
Proof.
  intros Hc Hn. unfold playTick, createOscillator. rewrite Hc. cbn.
  destruct (oscillator m) eqn:Eo; cbn; rewrite <- ?Hn, ?Eo; cbn.
  all: split; [split|]; cbn; auto; try congruence.
  all: rewrite <- !app_assoc, scheduledTimes_app; reflexivity.
Qed.

Lemma Ticked_Frame time m1 m2 m3 : Ticked time m1 m2 -> Frame m2 m3 -> Ticked time m1 m3.
Proof.
  intros [a b c d e f] [a' b' c' d' (evs & t' & s') n' _ _].
  split; try congruence; auto.
  rewrite t', scheduledTimes_app, s', app_nil_r. auto.
Qed.

Section TickFacts.

Variable handlers : Callback -> CallbackArg -> list Call.
Variable now : Q.

Lemma tick_ticked fuel time m m' :
  notNull (audioContext m) = true -> oscillator m = gainNode m ->
  final (run handlers fuel now (Tick time) m) = Some m' ->
  Ticked time m m'.
Proof.
  intros Hc Hn H. destruct fuel as [|fuel]; [discriminate|]. cbn [run] in H.
  assert (Hp : Ticked time m (playTick time (advancePulse m))).
  { assert (Ticked time (advancePulse m) (playTick time (advancePulse m))) as [a b c d e f].
    { apply playTick_effect; unfold advancePulse; destruct (_ <=? _); auto. }
    unfold advancePulse in *. destruct (_ <=? _); cbn in *; split; auto. }
  set (m1 := playTick time (advancePulse m)) in *.
  apply final_andThen in H as [H|(m2 & H2 & H)].
  - pose proof (run_frame handlers now fuel
                  (TickLoop (_pulse m1) (accentAt (_accents m1) (_pulse m1 - 1)) time 0)
                  m1 I) as F.
    rewrite H in F. cbn in F. eapply Ticked_Frame; eauto.
  - pose proof (run_frame handlers now fuel
                  (TickLoop (_pulse m1) (accentAt (_accents m1) (_pulse m1 - 1)) time 0)
                  m1 I) as F.
    rewrite H2 in F. cbn in F.
    pose proof (run_frame handlers now fuel (StateLoop (state m2) 0) m2 I) as F2.
    rewrite H in F2. eapply Ticked_Frame; [|exact F2]. eapply Ticked_Frame; eauto.
Qed.

(** The fields [tick] never writes, whatever the object. *)
Lemma tick_frame fuel time m m' :
  final (run handlers fuel now (Tick time) m) = Some m' ->
  nextTickTime m' = nextTickTime m /\ lastTickTime m' = lastTickTime m /\
  config m' = config m /\ audioContext m' = audioContext m.
Proof.
  intros H. destruct fuel as [|fuel]; [discriminate|]. cbn [run] in H.
  set (m1 := playTick time (advancePulse m)) in *.
  assert (H1 : nextTickTime m1 = nextTickTime m /\ lastTickTime m1 = lastTickTime m /\
               config m1 = config m /\ audioContext m1 = audioContext m).
  { unfold m1, playTick, createOscillator, advancePulse.
    repeat (cbn; match goal with
                 | |- context [if ?b then _ else _] => destruct b eqn:?
                 end); repeat split; reflexivity. }
  destruct H1 as (A & B & C & D).
  assert (G : forall x, Frame m1 x ->
              nextTickTime x = nextTickTime m /\ lastTickTime x = lastTickTime m /\
              config x = config m /\ audioContext x = audioContext m).
  { intros x [a b c d _ _ _ _]. repeat split; congruence. }
  apply final_andThen in H as [H|(m2 & H2 & H)].
  - apply G.
    pose proof (run_frame handlers now fuel
                  (TickLoop (_pulse m1) (accentAt (_accents m1) (_pulse m1 - 1)) time 0)
                  m1 I) as F.
    rewrite H in F. exact F.
  - apply G.
    pose proof (run_frame handlers now fuel
                  (TickLoop (_pulse m1) (accentAt (_accents m1) (_pulse m1 - 1)) time 0)
                  m1 I) as F.
    rewrite H2 in F.
    pose proof (run_frame handlers now fuel (StateLoop (state m2) 0) m2 I) as F2.
    rewrite H in F2. cbn in F. eapply Frame_trans; eauto.
Qed.

(** Callbacks that never write the tempo. *)
Hypothesis keepsBpm : forall cb arg, Forall (fun c => writesBpm c = false) (handlers cb arg).

Lemma run_keeps_bpm fuel t m m' :
  admissible (fun c => writesBpm c = false) t ->
  final (run handlers fuel now t m) = Some m' -> _bpm m' = _bpm m.
Proof.
  intros Ht H.
  assert (L : related (fun m m' => _bpm m' = _bpm m) (fun m m' => _bpm m' = _bpm m) m
                (run handlers fuel now t m)).
  { apply run_rule with (allowed := fun c => writesBpm c = false); auto.
    - intros; congruence.
    - intros; congruence.
    - intros c m0 Hc. destruct c as [| | | | |? [a|]| | | | | | |];
        try discriminate; cbn [prepare]; unfold stopped, cleanupAudioNodes;
        repeat (cbn; match goal with
                     | |- context [if ?b then _ else _] => destruct b eqn:?
                     | |- context [match createDefaultAccents ?v with _ => _ end] =>
                         destruct (createDefaultAccents v)
                     end); cbn; auto. }
  destruct (run handlers fuel now t m); cbn in *; try discriminate;
    injection H as <-; tauto.
Qed.

Lemma tick_keeps_bpm fuel time m m' :
  final (run handlers fuel now (Tick time) m) = Some m' -> _bpm m' = _bpm m.
Proof.
  intros H. destruct fuel as [|fuel]; [discriminate|]. cbn [run] in H.
  set (m1 := playTick time (advancePulse m)) in *.
  assert (H1 : _bpm m1 = _bpm m).
  { unfold m1, playTick, createOscillator, advancePulse.
    repeat (cbn; match goal with
                 | |- context [if ?b then _ else _] => destruct b eqn:?
                 end); reflexivity. }
  apply final_andThen in H as [H|(m2 & H2 & H)].
  - rewrite <- H1. eapply run_keeps_bpm; [|rewrite H; reflexivity]. exact I.
  - rewrite <- H1.
    transitivity (_bpm m2).
    + eapply run_keeps_bpm; [|exact H]. exact I.
    + eapply run_keeps_bpm; [|rewrite H2; reflexivity]. exact I.
Qed.

(** One pass of the [while] loop under a fixed tempo: the target times it
    hands to the oscillator are [n] times [60 / bpm] apart, starting at
    [nextTickTime]. *)
Lemma whileDue_progression fuel : forall ct m,
  notNull (audioContext m) = true -> oscillator m = gainNode m ->
  match run handlers fuel now (WhileDue ct) m with
  | Ok m' =>
      exists n,
        scheduledTimes (trace m') =
          scheduledTimes (trace m) ++ progression (nextTickTime m) (60 / _bpm m) n /\
        nextTickTime m' = after (nextTickTime m) (60 / _bpm m) n /\
        _bpm m' = _bpm m /\ audioContext m' = audioContext m /\
        oscillator m' = gainNode m'
  | Throw m' =>
      exists n,
        scheduledTimes (trace m') =
          scheduledTimes (trace m) ++ progression (nextTickTime m) (60 / _bpm m) n
  | OutOfFuel => True
  end.
Proof.
  induction fuel as [|fuel IH]; intros ct m Hc Hn; [exact I|].
  cbn [run]. destruct (Qltb _ _).
  2:{ exists 0%nat. cbn. rewrite app_nil_r. auto. }
  destruct (run handlers fuel now (Tick (nextTickTime m)) m) as [m1|m1|] eqn:E; cbn; auto.
  - assert (T : Ticked (nextTickTime m) m m1) by (eapply tick_ticked; eauto; rewrite E; auto).
    assert (B : _bpm m1 = _bpm m) by (eapply tick_keeps_bpm; rewrite E; reflexivity).
    destruct T as [a b c d e f].
    set (m2 := with_lastTickTime _ _).
    specialize (IH ct m2 ltac:(cbn; congruence) ltac:(cbn; congruence)).
    destruct (run handlers fuel now (WhileDue ct) m2) as [m'|m'|]; auto.
    + destruct IH as (n & Ht & Hx & Hb & Ha & Ho). exists (S n). cbn [progression after].
      cbn in Ht, Hx, Hb, Ha. unfold calculateInterval in *. rewrite B, a in *.
      rewrite Ht, f, <- app_assoc. cbn. repeat split; auto; congruence.
    + destruct IH as (n & Ht). exists (S n). cbn [progression].
      cbn in Ht. unfold calculateInterval in *. rewrite B, a in *.
      rewrite Ht, f, <- app_assoc. reflexivity.
  - assert (T : Ticked (nextTickTime m) m m1) by (eapply tick_ticked; eauto; rewrite E; auto).
    exists 1%nat. cbn. apply T.
Qed.

End TickFacts.
(** *** Observers that never call back *)

Lemma with_trace_id m : with_trace (trace m) m = m.
Proof. destruct m; reflexivity. Qed.

Section Passive.

Variable handlers : Callback -> CallbackArg -> list Call.
Variable now : Q.
Hypothesis passive : forall cb arg, handlers cb arg = [].

Lemma stateLoop_passive s n : forall m i,
  (length (stateChangeCallbacks m) - i <= n)%nat ->
  run handlers (n + 2) now (StateLoop s i) m =
  Ok (with_trace
        (trace m ++ map (fun cb => Called cb (StateArg s)) (drop i (stateChangeCallbacks m)))
        m).
Proof.
  induction n as [|n IH]; intros m i Hn.
  - cbn [run Nat.add]. rewrite drop_ge by lia.
    rewrite (proj2 (lookup_ge_None _ _)) by lia.
    cbn. rewrite app_nil_r, with_trace_id. reflexivity.
  - change (S n + 2)%nat with (S (n + 2)). cbn [run].
    destruct (stateChangeCallbacks m !! i) as [cb|] eqn:E.
    + rewrite passive. replace (n + 2)%nat with (S (n + 1)) at 1 by lia. cbn [run andThen].
      rewrite IH by (cbn; lia). cbn.
      erewrite (drop_S _ _ i) by eauto. cbn. rewrite <- app_assoc. reflexivity.
    + apply lookup_ge_None in E. rewrite drop_ge by lia.
      cbn. rewrite app_nil_r, with_trace_id. reflexivity.
Qed.

Lemma tickLoop_passive p a time n : forall m i,
  (length (tickCallbacks m) - i <= n)%nat ->
  run handlers (n + 2) now (TickLoop p a time i) m =
  Ok (with_trace
        (trace m ++ map (fun cb => Called cb (TickArg p a time)) (drop i (tickCallbacks m)))
        m).
Proof.
  induction n as [|n IH]; intros m i Hn.
  - cbn [run Nat.add]. rewrite drop_ge by lia.
    rewrite (proj2 (lookup_ge_None _ _)) by lia.
    cbn. rewrite app_nil_r, with_trace_id. reflexivity.
  - change (S n + 2)%nat with (S (n + 2)). cbn [run].
    destruct (tickCallbacks m !! i) as [cb|] eqn:E.
    + rewrite passive. replace (n + 2)%nat with (S (n + 1)) at 1 by lia. cbn [run andThen].
      rewrite IH by (cbn; lia). cbn.
      erewrite (drop_S _ _ i) by eauto. cbn. rewrite <- app_assoc. reflexivity.
    + apply lookup_ge_None in E. rewrite drop_ge by lia.
      cbn. rewrite app_nil_r, with_trace_id. reflexivity.
Qed.

Lemma notify_passive fuel m :
  (length (stateChangeCallbacks m) + 2 <= fuel)%nat ->
  run handlers fuel now (StateLoop (state m) 0) m = Ok (notifiedState m).
Proof.
  intros H.
  rewrite (run_mono handlers (length (stateChangeCallbacks m) + 2));
    rewrite ?stateLoop_passive; auto; try lia; discriminate.
Qed.

Lemma tick_passive fuel time m :
  (length (stateChangeCallbacks m) + length (tickCallbacks m) + 3 <= fuel)%nat ->
  run handlers fuel now (Tick time) m = Ok (ticked time m).
Proof.
  intros H. destruct fuel as [|fuel]; [lia|]. cbn [run].
  set (m1 := playTick time (advancePulse m)).
  assert (Hs : stateChangeCallbacks m1 = stateChangeCallbacks m /\
               tickCallbacks m1 = tickCallbacks m).
  { unfold m1, playTick, createOscillator, advancePulse.
    repeat (cbn; match goal with
                 | |- context [if ?b then _ else _] => destruct b eqn:?
                 end); auto. }
  destruct Hs as [Hs Ht].
  rewrite (run_mono handlers (length (tickCallbacks m1) + 2));
    rewrite ?tickLoop_passive; try (rewrite ?Ht; lia); try discriminate.
  cbn [andThen]. rewrite drop_0.
  rewrite notify_passive by (cbn; rewrite Hs; lia). reflexivity.
Qed.

End Passive.

Lemma tickTimes_app cb a b : tickTimes cb (a ++ b) = tickTimes cb a ++ tickTimes cb b.
Proof.
  induction a as [|e a IH]; [reflexivity|].
  destruct e as [| | | | | | | | | |c [p acc t|s]]; cbn; rewrite ?IH; try reflexivity.
  destruct (Nat.eqb c cb); cbn; rewrite ?IH; reflexivity.
Qed.

Lemma tickTimes_tickCalls cb p a t l :
  tickTimes cb (map (fun c => Called c (TickArg p a t)) l) = replicate (occurrences cb l) t.
Proof.
  induction l as [|c l IH]; [reflexivity|]. cbn.
  destruct (Nat.eqb c cb); cbn; rewrite IH; reflexivity.
Qed.

Lemma tickTimes_stateCalls cb s l :
  tickTimes cb (map (fun c => Called c (StateArg s)) l) = [].
Proof. induction l as [|c l IH]; cbn; auto. Qed.

Lemma scheduledTimes_calls arg l :
  scheduledTimes (map (fun c => Called c arg) l) = [].
Proof. induction l as [|c l IH]; cbn; auto. Qed.

Lemma scheduled_Scheduled m : Scheduled m (scheduled m).
Proof.
  unfold scheduled, ticked, notifiedState, notifiedTick, calculateInterval,
    playTick, createOscillator, advancePulse.
  split;
    repeat (cbn; match goal with
                 | |- context [if ?b then _ else _] => destruct b eqn:?
                 end); auto; try discriminate.
Qed.

Lemma playTick_trace time m :
  notNull (audioContext m) = true -> oscillator m = gainNode m ->
  exists evs, trace (playTick time m) = trace m ++ evs /\
    scheduledTimes evs = [time] /\ (forall cb, tickTimes cb evs = []) /\
    oscillator (playTick time m) = gainNode (playTick time m).
Proof.
  intros Hc Hn. unfold playTick, createOscillator. rewrite Hc. cbn.
  destruct (oscillator m) eqn:Eo; cbn; rewrite <- ?Hn, ?Eo; cbn.
  all: eexists; split; [rewrite <- !app_assoc; reflexivity|]; cbn;
    repeat split; auto; congruence.
Qed.

Lemma scheduled_trace m :
  notNull (audioContext m) = true -> oscillator m = gainNode m ->
  oscillator (scheduled m) = gainNode (scheduled m) /\
  exists evs, trace (scheduled m) = trace m ++ evs /\
    scheduledTimes evs = [nextTickTime m] /\
    forall cb, tickTimes cb evs = replicate (occurrences cb (tickCallbacks m)) (nextTickTime m).
Proof.
  intros Hc Hn.
  destruct (playTick_trace (nextTickTime m) (advancePulse m)) as (evs & Ht & Hs & Hk & Ho).
  { unfold advancePulse. destruct (_ <=? _); auto. }
  { unfold advancePulse. destruct (_ <=? _); auto. }
  assert (Hcb : tickCallbacks (playTick (nextTickTime m) (advancePulse m)) = tickCallbacks m).
  { unfold playTick, createOscillator, advancePulse.
    repeat (cbn; match goal with
                 | |- context [if ?b then _ else _] => destruct b eqn:?
                 end); auto. }
  unfold scheduled, ticked. cbn. split; [exact Ho|].
  set (m1 := playTick (nextTickTime m) (advancePulse m)) in *.
  eexists. split.
  { rewrite Ht. rewrite <- !app_assoc. replace (trace (advancePulse m)) with (trace m).
    - reflexivity.
    - unfold advancePulse. destruct (_ <=? _); auto. }
  split.
  - rewrite !scheduledTimes_app, Hs, !scheduledTimes_calls. reflexivity.
  - intros cb. rewrite !tickTimes_app, Hk, tickTimes_tickCalls, tickTimes_stateCalls, Hcb.
    cbn. rewrite app_nil_r. reflexivity.
Qed.

Lemma scheduledN_trace n : forall m,
  notNull (audioContext m) = true -> oscillator m = gainNode m ->
  exists evs, trace (scheduledN n m) = trace m ++ evs /\
    scheduledTimes evs = progression (nextTickTime m) (60 / _bpm m) n /\
    forall cb, occurrences cb (tickCallbacks m) = 1%nat ->
               tickTimes cb evs = progression (nextTickTime m) (60 / _bpm m) n.
Proof.
  induction n as [|n IH]; intros m Hc Hn.
  - exists []. cbn. rewrite app_nil_r. auto.
  - cbn [scheduledN progression].
    destruct (scheduled_trace m Hc Hn) as (Ho & evs & Ht & Hs & Hk).
    destruct (scheduled_Scheduled m) as [a b c d e f g h i j k l].
    destruct (IH (scheduled m)) as (evs' & Ht' & Hs' & Hk'); [congruence|exact Ho|].
    exists (evs ++ evs'). rewrite Ht', Ht, <- app_assoc. split; [reflexivity|].
    rewrite scheduledTimes_app, Hs, Hs', a, d. split; [reflexivity|].
    intros cb Hcb. rewrite tickTimes_app, Hk, Hk', Hcb, a, d by congruence. reflexivity.
Qed.

Lemma scheduledN_fields n : forall m,
  nextTickTime (scheduledN n m) = after (nextTickTime m) (60 / _bpm m) n /\
  config (scheduledN n m) = config m /\ _bpm (scheduledN n m) = _bpm m /\
  stateChangeCallbacks (scheduledN n m) = stateChangeCallbacks m /\
  tickCallbacks (scheduledN n m) = tickCallbacks m /\
  _isPlaying (scheduledN n m) = _isPlaying m.
Proof.
  induction n as [|n IH]; intros m; [cbn; auto 10|].
  cbn [scheduledN after].
  destruct (scheduled_Scheduled m) as [a b c d e f g h i j k l].
  destruct (IH (scheduled m)) as (A & B & C & D & E & F).
  rewrite A, B, C, D, E, F, a, d. repeat split; congruence.
Qed.

Section PassiveLoop.

Variable handlers : Callback -> CallbackArg -> list Call.
Variable now : Q.
Hypothesis passive : forall cb arg, handlers cb arg = [].

(** If exactly the first [n] upcoming ticks lie inside the window, the loop
    makes exactly [n] turns. *)
Lemma whileDue_passive ct n : forall m fuel,
  (forall j, (j < n)%nat ->
     (after (nextTickTime m) (60 / _bpm m) j < ct + scheduleAheadTime (config m))%Q) ->
  (ct + scheduleAheadTime (config m) <= after (nextTickTime m) (60 / _bpm m) n)%Q ->
  (fuelFor m n <= fuel)%nat ->
  run handlers fuel now (WhileDue ct) m = Ok (scheduledN n m).
Proof.
  induction n as [|n IH]; intros m fuel Hin Hout Hf; unfold fuelFor in Hf;
    (destruct fuel as [|fuel]; [lia|]); cbn [run scheduledN].
  - cbn in Hout. apply Qltb_ge in Hout. rewrite Hout. reflexivity.
  - pose proof (Hin 0%nat ltac:(lia)) as H0. cbn in H0. apply Qltb_lt in H0. rewrite H0.
    rewrite (tick_passive handlers now passive) by lia. cbn [andThen].
    destruct (scheduled_Scheduled m) as [a b c d e f g h i j k l].
    apply IH.
    + intros j' Hj. fold (scheduled m). rewrite a, c, d. apply (Hin (S j')). lia.
    + fold (scheduled m). rewrite a, c, d. exact Hout.
    + fold (scheduled m). unfold fuelFor. rewrite g, h. lia.
Qed.

End PassiveLoop.

(** With a positive step the window is left after finitely many turns. *)
Lemma window_left (t step horizon : Q) :
  (0 < step)%Q -> exists N, (horizon <= after t step N)%Q.
Proof.
  intros Hs.
  set (x := ((horizon - t) / step)%Q).
  assert (E : (x * step == horizon - t)%Q).
  { unfold x. field. intros E0. rewrite E0 in Hs. apply (Qlt_irrefl 0); assumption. }
  exists (Z.to_nat (Qceiling x)).
  rewrite after_Qeq.
  pose proof (Qle_ceiling x) as Hc.
  assert (Hx : (x <= inject_Z (Z.of_nat (Z.to_nat (Qceiling x))))%Q).
  { eapply Qle_trans; [exact Hc|]. rewrite <- Zle_Qle. lia. }
  apply (Qmult_le_compat_r _ _ step) in Hx; [|apply Qlt_le_weak; assumption].
  rewrite E in Hx. lra.
Qed.

(** The least such number of turns. *)
Lemma due_search (t step horizon : Q) (N : nat) :
  (forall j, (j < N)%nat -> (after t step j < horizon)%Q) \/
  (exists n, (n < N)%nat /\ (horizon <= after t step n)%Q /\
             forall j, (j < n)%nat -> (after t step j < horizon)%Q).
Proof.
  induction N as [|N [IH|(n & Hn & Hh & Hj)]].
  - left. intros j Hj. lia.
  - destruct (Qlt_le_dec (after t step N) horizon) as [Hlt|Hle].
    + left. intros j Hj. destruct (Nat.eq_dec j N) as [->|Hne]; [assumption|].
      apply IH. lia.
    + right. exists N. auto.
  - right. exists n. auto.
Qed.

Lemma due_count (t step horizon : Q) :
  (0 < step)%Q ->
  exists n, (horizon <= after t step n)%Q /\
            forall j, (j < n)%nat -> (after t step j < horizon)%Q.
Proof.
  intros Hs. destruct (window_left t step horizon Hs) as (N & HN).
  destruct (due_search t step horizon N) as [H|(n & Hn & Hh & Hj)]; eauto.
Qed.
(** * The claims *)

(** ** Construction and the setters *)

(** The scenario of the specification: default construction. *)
Lemma new_default : new_MetronomeCore emptyConfig = Some defaultMetronome.
Proof. reflexivity. Qed.

Lemma createDefaultAccents_length meter a :
  createDefaultAccents meter = Some a -> Z.of_nat (length a) = meter.
Proof.
  unfold createDefaultAccents. destruct (0 <=? meter) eqn:E0; [|discriminate].
  destruct (meter <? 2 ^ 32); cbn; [|discriminate].
  intros [= <-]. apply Z.leb_le in E0.
  destruct (0 <? meter); rewrite ?length_insert, length_replicate; lia.
Qed.

Lemma createDefaultAccents_first meter a :
  createDefaultAccents meter = Some a -> 0 < meter ->
  a = true :: replicate (Z.to_nat meter - 1) false.
Proof.
  unfold createDefaultAccents. destruct (0 <=? meter); [|discriminate].
  destruct (meter <? 2 ^ 32); cbn; [|discriminate].
  intros [= <-] H. apply Z.ltb_lt in H as H'. rewrite H'.
  destruct (Z.to_nat meter) as [|n] eqn:E; [lia|]. cbn. rewrite Nat.sub_0_r. reflexivity.
Qed.

(** C9: for every [m < 1] and any accents argument, [setMeter(m, accents?)]
    and the [meter] setter return at once: the object, trace included, is
    exactly as before, so meter and accents are unchanged, nothing is thrown
    and no callback is notified. *)
Theorem C9_meter_below_one_is_ignored
  (handlers : Callback -> CallbackArg -> list Call) (fuel : nat) (now : Q)
  (m : MetronomeCore) (meter : Z) (accents : option (list bool)) :
  meter < 1 ->
  run handlers (S fuel) now (Invoke (SetMeter meter accents)) m = Ok m /\
  run handlers (S fuel) now (Invoke (SetMeterProp meter)) m = Ok m /\
  forall notify, setMeter notify meter accents m = Ok m /\ set_meter notify meter m = Ok m.
Proof.
  intros H. apply Z.ltb_lt in H.
  cbn [run]. unfold setMeter, set_meter. rewrite H. auto.
Qed.

Lemma C9_witness :
  0 < 1 /\
  run observers 1 0 (Invoke (SetMeter 0 (Some [true; true]))) defaultMetronome
  = Ok defaultMetronome.
Proof.
  split; [lia|].
  apply (C9_meter_below_one_is_ignored observers 0 0 defaultMetronome 0 (Some [true; true])).
  lia.
Defined.

(** *** The tempo bounds *)

Lemma clampBpm_in_range m value :
  (minBpm (config m) <= maxBpm (config m))%Q ->
  (minBpm (config m) <= clampBpm m value)%Q /\ (clampBpm m value <= maxBpm (config m))%Q.
Proof.
  intros H. unfold clampBpm. split; [apply Q.le_max_l|].
  apply Q.max_lub; [assumption|apply Q.le_min_l].
Qed.

Lemma clampBpm_id m value :
  (minBpm (config m) <= value)%Q -> (value <= maxBpm (config m))%Q ->
  (clampBpm m value == value)%Q.
Proof.
  intros H1 H2. unfold clampBpm. rewrite Q.min_r by assumption.
  apply Q.max_r. assumption.
Qed.

Section BpmRange.

Variable handlers : Callback -> CallbackArg -> list Call.
Variable now : Q.

(** Every task a callback or the user can start keeps the configuration and,
    when the bounds are ordered, a tempo that is in range. *)
Lemma run_keeps_range fuel t m m' :
  admissible (fun _ => True) t ->
  (minBpm (config m) <= maxBpm (config m))%Q ->
  final (run handlers fuel now t m) = Some m' ->
  bpmInRange m -> bpmInRange m'.
Proof.
  intros Ht Hb H.
  assert (L : related (fun m m' =>
                config m' = config m /\
                ((minBpm (config m) <= maxBpm (config m))%Q ->
                 bpmInRange m -> bpmInRange m'))
                (fun m m' =>
                config m' = config m /\
                ((minBpm (config m) <= maxBpm (config m))%Q ->
                 bpmInRange m -> bpmInRange m'))
                m (run handlers fuel now t m)).
  { apply run_rule with (allowed := fun _ => True); auto.
    - intros; apply Forall_forall; auto.
    - intros m1 m2 m3 [c1 r1] [c2 r2]. split; [congruence|].
      intros Hm H1. apply r2; [rewrite c1; assumption|auto].
    - intros m1 m2 m3 [c1 r1] [c2 r2]. split; [congruence|].
      intros Hm H1. apply r2; [rewrite c1; assumption|auto].
    - intros c m0 _.
      assert (forall v, (minBpm (config m0) <= maxBpm (config m0))%Q ->
                        bpmInRange (with_bpm (clampBpm m0 v) m0)) as Hclamp.
      { intros v Hm. unfold bpmInRange. cbn. apply clampBpm_in_range. assumption. }
      destruct c as [| | | | |? [a|]| | | | | | |]; cbn [prepare] in *;
        unfold stopped, cleanupAudioNodes in *;
        repeat (cbn in *; match goal with
                     | |- context [if ?b then _ else _] => destruct b eqn:?
                     | |- context [match createDefaultAccents ?v with _ => _ end] =>
                         destruct (createDefaultAccents v)
                     end); cbn; auto. }
  destruct (run handlers fuel now t m); cbn in *; try discriminate;
    injection H as <-; tauto.
Qed.

(** Every write through the setter lands in range. *)
Lemma set_bpm_in_range fuel value m m' :
  (minBpm (config m) <= maxBpm (config m))%Q ->
  final (run handlers fuel now (Invoke (SetBpm value)) m) = Some m' ->
  bpmInRange m'.
Proof.
  intros Hb H. destruct fuel as [|fuel]; [discriminate|].
  rewrite run_Invoke in H. cbn [prepare] in H.
  eapply run_keeps_range; [| |exact H|]; [exact I|exact Hb|].
  unfold bpmInRange. cbn. apply clampBpm_in_range. assumption.
Qed.

End BpmRange.

(** The tests of the repository: 150 is kept, 20 becomes 30, 400 becomes 300. *)
Lemma set_bpm_examples :
  (forall m, run observers 3 0 (Invoke (SetBpm 150)) defaultMetronome = Ok m ->
             (_bpm m == 150)%Q) /\
  (forall m, run observers 3 0 (Invoke (SetBpm 20)) defaultMetronome = Ok m ->
             (_bpm m == 30)%Q) /\
  (forall m, run observers 3 0 (Invoke (SetBpm 400)) defaultMetronome = Ok m ->
             (_bpm m == 300)%Q).
Proof.
  repeat split; intros m [= <-]; reflexivity.
Qed.

(** C5 (the code departs from the claim): the constructor stores
    [config.bpm] as it is.  [new MetronomeCore({ bpm: 500 })] has the default
    bounds 30 and 300 and the tempo 500, outside them, although both the
    setter and [handle] clamp and [types.ts] documents [maxBpm] as the maximum
    allowed. *)
Theorem C5_constructor_stores_bpm_unclamped :
  exists m, new_MetronomeCore (configWithBpm 500) = Some m /\
            (_bpm m == 500)%Q /\ (maxBpm (config m) == 300)%Q /\ ~ bpmInRange m.
Proof.
  eexists. split; [reflexivity|]. cbn. repeat split; try reflexivity.
  intros [_ H]. cbn in H. apply Qle_bool_iff in H. discriminate.
Qed.
(** *** The accents array and the meter *)

Section AccentsLength.

Variable handlers : Callback -> CallbackArg -> list Call.
Variable now : Q.
Hypothesis handlers_keep : forall cb arg, Forall keepsLength (handlers cb arg).

Lemma prepare_keeps_length c m :
  keepsLengthAt m c -> accentsMatchMeter m ->
  match prepare now c m with
  | Return m' | Notify m' => accentsMatchMeter m'
  | Raise _ => True
  end.
Proof.
  unfold accentsMatchMeter.
  destruct c as [| | | | |? [a|]| | | | | | |]; cbn [prepare keepsLengthAt keepsLength];
    intros Hc Hm; unfold stopped, cleanupAudioNodes, accentsInRange;
    repeat (cbn; match goal with
                 | |- context [if ?b then _ else _] => destruct b eqn:?
                 | |- context [match createDefaultAccents ?v with _ => _ end] =>
                     destruct (createDefaultAccents v) eqn:?
                 end); cbn; rewrite ?length_insert; auto;
    try (apply createDefaultAccents_length; assumption).
  apply Hc. apply Z.ltb_ge in Heqb. lia.
Qed.

Lemma run_keeps_length fuel t m m' :
  admissible keepsLength t ->
  run handlers fuel now t m = Ok m' ->
  accentsMatchMeter m -> accentsMatchMeter m'.
Proof.
  intros Ht H.
  assert (L : related (fun m m' => accentsMatchMeter m -> accentsMatchMeter m')
                (fun _ _ => True) m (run handlers fuel now t m)).
  { apply run_rule with (allowed := keepsLength); auto.
    intros c m0 Hc.
    pose proof (prepare_keeps_length c m0) as P.
    assert (Hat : keepsLengthAt m0 c) by (destruct c; cbn in *; auto; contradiction).
    destruct (prepare now c m0); auto. }
  rewrite H in L. exact L.
Qed.

End AccentsLength.

(** C6, counterexample: the accents setter stores what it is given;
    [metronome.accents = [true]] on the default metronome (meter 4) leaves an
    array of length 1. *)
Lemma C6_counterexample :
  exists m, run observers 3 0 (Invoke (SetAccents [true])) defaultMetronome = Ok m /\
            accentsMatchMeter defaultMetronome /\ ~ accentsMatchMeter m.
Proof.
  eexists. split; [reflexivity|]. split; [reflexivity|]. cbv. discriminate.
Qed.

(** C6, as amended: [accents.length == meter] is established by the
    constructor when no accents are configured, and is preserved by every
    call that returns normally as long as each explicit array has the right
    length: the accents setter given an array of the current meter's length,
    [setMeter] given an array of the new meter's length, and every other call
    (the meter setter and [setMeter] without accents re-derive the array;
    [toggleAccent] and [setAccent] write in place).  An explicit array is
    stored as it is: the constructor keeps [config.accents] whatever the
    meter. *)
Theorem C6_accents_length_follows_meter
  (handlers : Callback -> CallbackArg -> list Call) (fuel : nat) (now : Q) :
  (forall cfg m, new_MetronomeCore cfg = Some m ->
     match cfg_accents cfg with
     | None => accentsMatchMeter m
     | Some a => _accents m = a /\ _meter m = default 4 (cfg_meter cfg)
     end) /\
  (forall c m m',
     (forall cb arg, Forall keepsLength (handlers cb arg)) ->
     keepsLengthAt m c ->
     accentsMatchMeter m ->
     run handlers fuel now (Invoke c) m = Ok m' ->
     accentsMatchMeter m').
Proof.
  split.
  - intros cfg m. unfold new_MetronomeCore.
    destruct (cfg_accents cfg) as [a|]; cbn.
    + intros [= <-]. auto.
    + destruct (createDefaultAccents _) as [a|] eqn:E; cbn; [|discriminate].
      intros [= <-]. unfold accentsMatchMeter. cbn.
      apply createDefaultAccents_length. assumption.
  - intros c m m' Hh Hc Hm H. destruct fuel as [|fuel']; [discriminate|].
    rewrite run_Invoke in H.
    pose proof (prepare_keeps_length now c m Hc Hm) as P.
    destruct (prepare now c m) as [m1|m1|m1]; try congruence.
    eapply run_keeps_length; eauto. exact I.
Qed.

Lemma C6_witness :
  exists m,
    run observers 3 0 (Invoke (SetMeter 3 None)) defaultMetronome = Ok m /\
    accentsMatchMeter m /\ _accents m = [true; false; false].
Proof.
  eexists. split; [reflexivity|]. split; [|reflexivity].
  apply (proj2 (C6_accents_length_follows_meter observers 3 0)
           (SetMeter 3 None) defaultMetronome).
  - intros cb arg. constructor.
  - exact I.
  - reflexivity.
  - reflexivity.
Defined.
(** ** The tick *)

Lemma accentAt_out_of_bounds accents i :
  i < 0 \/ Z.of_nat (length accents) <= i -> accentAt accents i = false.
Proof.
  intros H. unfold accentAt. destruct (i <? 0) eqn:E; [reflexivity|].
  apply Z.ltb_ge in E. rewrite (proj2 (lookup_ge_None _ _)); [reflexivity|lia].
Qed.

Lemma advancePulse_pulse m : _pulse (advancePulse m) = nextPulse (_pulse m) (_meter m).
Proof. unfold advancePulse, nextPulse. destruct (_ <=? _); reflexivity. Qed.

Lemma playTick_unaccented time m :
  accentAt (_accents m) (_pulse m - 1) = false ->
  exists evs, trace (playTick time m) = trace m ++ evs /\
              Forall (unaccented (normalFrequency (config m))) evs.
Proof.
  intros H. unfold playTick, createOscillator.
  repeat (cbn; match goal with
               | |- context [if ?b then _ else _] => destruct b eqn:?
               end);
    try (exists []; rewrite app_nil_r; split; [reflexivity|constructor]);
    cbn in *; try congruence;
    (eexists; split; [rewrite <- !app_assoc; reflexivity|]);
    repeat constructor.
Qed.

Lemma ticked_fields time m :
  _pulse (ticked time m) = nextPulse (_pulse m) (_meter m) /\
  _meter (ticked time m) = _meter m /\
  stateChangeCallbacks (ticked time m) = stateChangeCallbacks m /\
  tickCallbacks (ticked time m) = tickCallbacks m /\
  _accents (ticked time m) = _accents m /\ config (ticked time m) = config m.
Proof.
  unfold ticked, notifiedState, notifiedTick, playTick, createOscillator, advancePulse,
    nextPulse.
  repeat (cbn; match goal with
               | |- context [if ?b then _ else _] => destruct b eqn:?
               end); auto 10; try discriminate.
Qed.

Lemma since_app m m' evs : trace m' = trace m ++ evs -> since m m' = evs.
Proof. intros H. unfold since. rewrite H. apply drop_app_length. Qed.

Lemma ticked_unaccented time m :
  accentAt (_accents m) (nextPulse (_pulse m) (_meter m) - 1) = false ->
  Forall (unaccented (normalFrequency (config m))) (since m (ticked time m)).
Proof.
  intros H.
  destruct (playTick_unaccented time (advancePulse m)) as (evs & Ht & Hu).
  { rewrite advancePulse_pulse. unfold advancePulse. destruct (_ <=? _); exact H. }
  assert (Hp : _pulse (playTick time (advancePulse m)) = nextPulse (_pulse m) (_meter m) /\
               _accents (playTick time (advancePulse m)) = _accents m).
  { rewrite <- advancePulse_pulse. unfold playTick, createOscillator, advancePulse.
    repeat (cbn; match goal with
                 | |- context [if ?b then _ else _] => destruct b eqn:?
                 end); auto. }
  destruct Hp as [Hp Ha].
  erewrite since_app.
  2:{ unfold ticked, notifiedState, notifiedTick. cbn. rewrite Ht, <- !app_assoc.
      replace (trace (advancePulse m)) with (trace m)
        by (unfold advancePulse; destruct (_ <=? _); reflexivity).
      reflexivity. }
  rewrite Hp, Ha, H.
  apply Forall_app. split.
  - replace (config m) with (config (advancePulse m))
      by (unfold advancePulse; destruct (_ <=? _); reflexivity). exact Hu.
  - apply Forall_app. split; apply Forall_forall; intros e He;
      apply list_elem_of_fmap in He as (cb & -> & _); reflexivity.
Qed.

Section NoThrow.

Variable handlers : Callback -> CallbackArg -> list Call.
Variable now : Q.
Hypothesis handlers_safe : forall cb arg, Forall (fun c => mayThrow c = false) (handlers cb arg).

Lemma run_never_throws fuel t m m' :
  admissible (fun c => mayThrow c = false) t ->
  run handlers fuel now t m <> Throw m'.
Proof.
  intros Ht H.
  assert (L : related (fun _ _ => True) (fun _ _ => False) m (run handlers fuel now t m)).
  { apply run_rule with (allowed := fun c => mayThrow c = false); auto.
    intros c m0 Hc.
    destruct c as [|v| | | |v [a|]| | | | | | |]; cbn [prepare mayThrow] in *;
      repeat (cbn; match goal with
                   | |- context [if ?b then _ else _] => destruct b eqn:?
                   end); auto.
    all: unfold createDefaultAccents.
    all: apply Z.ltb_ge in Heqb.
    all: assert (E1 : (1 <=? v) = true) by (apply Z.leb_le; lia).
    all: rewrite E1 in Hc; cbn in Hc; apply negb_false_iff in Hc.
    all: assert (E0 : (0 <=? v) = true) by (apply Z.leb_le; lia).
    all: rewrite E0, Hc; cbn; exact I. }
  rewrite H in L. exact L.
Qed.

Lemma tick_never_throws fuel time m m' :
  run handlers fuel now (Tick time) m <> Throw m'.
Proof.
  destruct fuel as [|fuel]; [discriminate|]. cbn [run].
  set (m1 := playTick time (advancePulse m)).
  destruct (run handlers fuel now (TickLoop _ _ _ _) m1) as [m2|m2|] eqn:E; cbn.
  - apply run_never_throws. exact I.
  - exfalso. eapply run_never_throws; [|exact E]. exact I.
  - discriminate.
Qed.

End NoThrow.

(** C7: scheduling a tick never throws, whatever the object, accents shorter
    than the pulse included: a throw can only come out of a call a callback
    makes (the one throwing call of the class is [new Array(meter)] in the
    meter setters), and with observers that only observe the tick returns for
    every fuel from a bound on.  When [pulse - 1] (pulse already advanced) is
    outside the accents array the lookup gives [false]: the frequency handed to
    the oscillator is [normalFrequency] and every tick callback is called with
    [isAccented = false]. *)
Theorem C7_tick_is_total_and_defaults_to_unaccented
  (handlers : Callback -> CallbackArg -> list Call) (now time : Q) (m : MetronomeCore) :
  ((forall cb arg, Forall (fun c => mayThrow c = false) (handlers cb arg)) ->
   forall fuel m', tick handlers fuel now time m <> Throw m') /\
  ((forall cb arg, handlers cb arg = []) ->
   exists fuel0, forall fuel, (fuel0 <= fuel)%nat ->
     exists m', tick handlers fuel now time m = Ok m' /\
       let p := nextPulse (_pulse m) (_meter m) in
       (p - 1 < 0 \/ Z.of_nat (length (_accents m)) <= p - 1 ->
        accentAt (_accents m) (p - 1) = false /\
        Forall (unaccented (normalFrequency (config m))) (since m m'))).
Proof.
  split.
  - intros Hs fuel m'. apply tick_never_throws. assumption.
  - intros Hp.
    exists (length (stateChangeCallbacks m) + length (tickCallbacks m) + 3)%nat.
    intros fuel Hf. exists (ticked time m). split.
    + apply tick_passive; assumption.
    + intros p Hout. pose proof (accentAt_out_of_bounds _ _ Hout) as Ha.
      split; [exact Ha|]. apply ticked_unaccented. exact Ha.
Qed.

Lemma C7_witness :
  exists m', tick observers 5 0 0 shortAccents = Ok m' /\
             Forall (unaccented 800) (since shortAccents m').
Proof.
  destruct (proj2 (C7_tick_is_total_and_defaults_to_unaccented observers 0 0 shortAccents)
              (fun _ _ => eq_refl)) as (fuel0 & H).
  destruct (H (fuel0 + 5)%nat ltac:(lia)) as (m' & Hm & Hu).
  exists m'. split.
  - rewrite <- Hm. symmetry. apply run_mono; [lia|]. vm_compute. discriminate.
  - apply Hu. right. vm_compute. discriminate.
Defined.
(** *** The pulse *)

Lemma nextPulse_claimed pulse meter :
  pulse <= meter -> nextPulse pulse meter = claimedNextPulse pulse meter.
Proof.
  intros H. unfold nextPulse, claimedNextPulse.
  destruct (meter <=? pulse) eqn:E1, (pulse =? meter) eqn:E2; try reflexivity.
  - apply Z.leb_le in E1. apply Z.eqb_neq in E2. lia.
  - apply Z.leb_gt in E1. apply Z.eqb_eq in E2. lia.
Qed.

Lemma nextPulse_range pulse meter :
  0 <= pulse -> 1 <= meter -> 1 <= nextPulse pulse meter <= meter.
Proof.
  intros Hp Hm. unfold nextPulse. destruct (meter <=? pulse) eqn:E; [lia|].
  apply Z.leb_gt in E. lia.
Qed.

(** The pulse after [n + 1] advances, starting anywhere. *)
Lemma nextPulse_cycle meter n : forall pulse,
  0 <= pulse -> 1 <= meter ->
  Nat.iter (S n) (fun p => nextPulse p meter) pulse =
  ((if meter <=? pulse then 0 else pulse) + Z.of_nat n) mod meter + 1.
Proof.
  induction n as [|n IH]; intros pulse Hp Hm.
  - cbn. unfold nextPulse. destruct (meter <=? pulse) eqn:E.
    + rewrite Z.mod_0_l by lia. reflexivity.
    + apply Z.leb_gt in E. rewrite Z.add_0_r, Z.mod_small by lia. reflexivity.
  - change (Nat.iter (S (S n)) (fun p => nextPulse p meter) pulse)
      with (nextPulse (Nat.iter (S n) (fun p => nextPulse p meter) pulse) meter).
    rewrite IH by assumption.
    set (x := (if meter <=? pulse then 0 else pulse) + Z.of_nat n).
    replace ((if meter <=? pulse then 0 else pulse) + Z.of_nat (S n)) with (x + 1) by lia.
    pose proof (Z.mod_pos_bound x meter ltac:(lia)) as Hb.
    unfold nextPulse. destruct (meter <=? x mod meter + 1) eqn:E.
    + apply Z.leb_le in E.
      assert (Hx : x mod meter = meter - 1) by lia.
      rewrite <- (Zplus_mod_idemp_l x 1), Hx.
      replace (meter - 1 + 1) with meter by lia. rewrite Z.mod_same by lia. reflexivity.
    + apply Z.leb_gt in E.
      rewrite <- (Zplus_mod_idemp_l x 1). rewrite (Z.mod_small (x mod meter + 1)) by lia.
      reflexivity.
Qed.

Section Pulse.

Variable handlers : Callback -> CallbackArg -> list Call.
Variable now : Q.

(** A tick advances the pulse; a callback can only reset it (by stopping). *)
Lemma tick_pulse fuel time m m' :
  final (run handlers fuel now (Tick time) m) = Some m' ->
  _pulse m' = nextPulse (_pulse m) (_meter m) \/ _pulse m' = 0.
Proof.
  intros H. destruct fuel as [|fuel]; [discriminate|]. cbn [run] in H.
  set (m1 := playTick time (advancePulse m)) in *.
  assert (H1 : _pulse m1 = nextPulse (_pulse m) (_meter m)).
  { rewrite <- advancePulse_pulse. unfold m1, playTick, createOscillator.
    repeat (cbn; match goal with
                 | |- context [if ?b then _ else _] => destruct b eqn:?
                 end); reflexivity. }
  apply final_andThen in H as [H|(m2 & H2 & H)].
  - pose proof (run_frame handlers now fuel
                  (TickLoop (_pulse m1) (accentAt (_accents m1) (_pulse m1 - 1)) time 0)
                  m1 I) as F.
    rewrite H in F. destruct (frame_pulse _ _ F); [left; congruence|right; assumption].
  - pose proof (run_frame handlers now fuel
                  (TickLoop (_pulse m1) (accentAt (_accents m1) (_pulse m1 - 1)) time 0)
                  m1 I) as F.
    rewrite H2 in F.
    pose proof (run_frame handlers now fuel (StateLoop (state m2) 0) m2 I) as F2.
    rewrite H in F2.
    destruct (frame_pulse _ _ F2) as [E2|E2]; [|right; assumption].
    destruct (frame_pulse _ _ F) as [E1|E1]; [left|right]; congruence.
Qed.

(** [stop()] on a playing metronome leaves the pulse at 0, and so does
    everything its notification runs. *)
Lemma stop_pulse fuel m m' :
  _isPlaying m = true ->
  final (run handlers fuel now (Invoke Stop) m) = Some m' ->
  _pulse m' = 0 /\ _isPlaying m' = false.
Proof.
  intros Hp H. destruct fuel as [|fuel]; [discriminate|].
  rewrite run_Invoke in H. cbn [prepare] in H. rewrite Hp in H. cbn in H.
  pose proof (run_frame handlers now fuel (StateLoop (state (stopped now m)) 0)
                (stopped now m) I) as F.
  rewrite H in F.
  assert (Hs : _isPlaying (stopped now m) = false /\ _pulse (stopped now m) = 0).
  { unfold stopped, cleanupAudioNodes.
    repeat (cbn; match goal with
                 | |- context [if ?b then _ else _] => destruct b eqn:?
                 end); auto. }
  destruct Hs as [Hs1 Hs2]. destruct (frame_stopped _ _ F Hs1) as (A & _ & C).
  split; congruence.
Qed.

Lemma tickN_mono times : forall m fuel fuel',
  (fuel <= fuel')%nat ->
  tickN handlers fuel now times m <> OutOfFuel ->
  tickN handlers fuel' now times m = tickN handlers fuel now times m.
Proof.
  induction times as [|t times IH]; intros m fuel fuel' Hf Hn; [reflexivity|].
  cbn [tickN] in *. apply andThen_mono; auto.
  intros H. apply run_mono; assumption.
Qed.

Hypothesis passive : forall cb arg, handlers cb arg = [].

Lemma tickN_passive times : forall m fuel,
  (length (stateChangeCallbacks m) + length (tickCallbacks m) + 3 <= fuel)%nat ->
  tickN handlers fuel now times m = Ok (fold_left (fun m t => ticked t m) times m).
Proof.
  induction times as [|t times IH]; intros m fuel Hf; [reflexivity|].
  cbn [tickN fold_left]. rewrite (tick_passive handlers now passive) by assumption.
  cbn [andThen]. apply IH.
  destruct (ticked_fields t m) as (_ & _ & Hs & Ht & _). rewrite Hs, Ht. assumption.
Qed.

Lemma ticked_fold_pulse times : forall m,
  _pulse (fold_left (fun m t => ticked t m) times m) =
  Nat.iter (length times) (fun p => nextPulse p (_meter m)) (_pulse m) /\
  _meter (fold_left (fun m t => ticked t m) times m) = _meter m.
Proof.
  induction times as [|t times IH]; intros m; [auto|].
  cbn [fold_left length]. destruct (IH (ticked t m)) as [Hp Hm].
  destruct (ticked_fields t m) as (Ep & Em & _).
  rewrite Hp, Hm, Ep, Em. split; [|reflexivity].
  symmetry. apply (Nat.iter_succ_r (length times) (fun p => nextPulse p (_meter m))).
Qed.

End Pulse.

(** C4, counterexample: the default metronome, started and polled until the
    pulse is 4, has its meter set to 2 while playing; the next tick takes the
    pulse to 1, where the rule [pulse == meter ? 1 : pulse + 1] gives 5. *)
Lemma C4_counterexample :
  exists m m',
    meterShrunk = Ok m /\ _pulse m = 4 /\ _meter m = 2 /\
    tick observers 20 (26 # 10) (nextTickTime m) m = Ok m' /\
    _pulse m' = 1 /\ _pulse m' <> claimedNextPulse (_pulse m) (_meter m).
Proof.
  eexists. eexists. split; [vm_compute; reflexivity|].
  split; [reflexivity|]. split; [reflexivity|].
  split; [vm_compute; reflexivity|]. split; [reflexivity|]. vm_compute. discriminate.
Qed.

(** C4, as amended: a tick advances the pulse by
    [pulse = (pulse >= meter) ? 1 : pulse + 1] (a callback that stops the
    metronome during the tick leaves it at 0), which is the rule
    [pulse == meter ? 1 : pulse + 1] whenever [pulse <= meter]; so with
    [meter >= 1], from any starting pulse, the pulse after [n >= 1] ticks is
    [(p + n - 1) mod meter + 1], where [p] is the starting pulse, taken as 0
    when it is [meter] or more: the pulses cycle [1..meter].  [stop()] on a
    playing metronome leaves the pulse at 0. *)
Theorem C4_pulse_cycles_and_stop_resets
  (handlers : Callback -> CallbackArg -> list Call) (now : Q) :
  (forall fuel time m m',
     final (tick handlers fuel now time m) = Some m' ->
     _pulse m' = nextPulse (_pulse m) (_meter m) \/ _pulse m' = 0) /\
  (forall pulse meter,
     pulse <= meter -> nextPulse pulse meter = claimedNextPulse pulse meter) /\
  ((forall cb arg, handlers cb arg = []) ->
   forall times m, 0 <= _pulse m -> 1 <= _meter m -> times <> [] ->
     exists fuel0, forall fuel, (fuel0 <= fuel)%nat ->
       exists m', tickN handlers fuel now times m = Ok m' /\
         _pulse m' =
           ((if _meter m <=? _pulse m then 0 else _pulse m)
            + (Z.of_nat (length times) - 1)) mod _meter m + 1 /\
         1 <= _pulse m' <= _meter m) /\
  (forall fuel m m',
     _isPlaying m = true ->
     final (run handlers fuel now (Invoke Stop) m) = Some m' ->
     _pulse m' = 0).
Proof.
  repeat split.
  - intros fuel time m m'. apply tick_pulse.
  - apply nextPulse_claimed.
  - intros Hp times m H0 H1 Hne.
    exists (length (stateChangeCallbacks m) + length (tickCallbacks m) + 3)%nat.
    intros fuel Hf. eexists. split; [apply tickN_passive; assumption|].
    destruct (ticked_fold_pulse times m) as [Ep _]. rewrite Ep.
    destruct times as [|t times]; [congruence|]. cbn [length].
    rewrite nextPulse_cycle by assumption.
    replace (Z.of_nat (S (length times)) - 1) with (Z.of_nat (length times)) by lia.
    split; [reflexivity|].
    pose proof (Z.mod_pos_bound
                  ((if _meter m <=? _pulse m then 0 else _pulse m) + Z.of_nat (length times))
                  (_meter m) ltac:(lia)).
    lia.
  - intros fuel m m' Hp H. eapply stop_pulse; eauto.
Qed.

Lemma C4_witness :
  (exists m', tickN observers 3 0 [0; 1; 2; 3; 4]%Q defaultMetronome = Ok m' /\ _pulse m' = 1) /\
  (exists m', run observers 5 0 (Invoke Stop) fastMetronome = Ok m' /\ _pulse m' = 0).
Proof.
  pose proof (C4_pulse_cycles_and_stop_resets observers 0) as (_ & _ & Hc & Hs).
  split.
  - destruct (Hc (fun _ _ => eq_refl) [0; 1; 2; 3; 4]%Q defaultMetronome
                ltac:(cbn; lia) ltac:(cbn; lia) ltac:(discriminate)) as (fuel0 & H).
    destruct (H (fuel0 + 3)%nat ltac:(lia)) as (m' & Hm & Hp & _).
    exists m'. split; [|exact Hp].
    rewrite <- Hm. symmetry. apply tickN_mono; [lia|]. vm_compute. discriminate.
  - eexists. split; [vm_compute; reflexivity|].
    eapply (Hs 5%nat fastMetronome); [reflexivity|]. vm_compute. reflexivity.
Defined.
(** ** Scheduling *)

Lemma Progressed_refl m : oscillator m = gainNode m -> Progressed m m 0.
Proof. intros H. unfold Progressed. cbn. rewrite app_nil_r. auto. Qed.

Lemma Progressed_trans m1 m2 m3 n k :
  Progressed m1 m2 n -> Progressed m2 m3 k -> Progressed m1 m3 (n + k).
Proof.
  intros (t1 & x1 & b1 & o1) (t2 & x2 & b2 & o2). unfold Progressed.
  rewrite t2, t1, x2, x1, b2, b1, <- app_assoc, progression_app, after_add. auto.
Qed.

Lemma Progressed_Frame m1 m2 m3 n :
  Progressed m1 m2 n -> Frame m2 m3 -> _bpm m3 = _bpm m2 -> Progressed m1 m3 n.
Proof.
  intros (t1 & x1 & b1 & o1) [a b c d (evs & t & s) nd _ _] Hb. unfold Progressed.
  rewrite t, scheduledTimes_app, s, app_nil_r, a, Hb. auto.
Qed.

Lemma progression_pairs t step n i a b :
  progression t step n !! i = Some a ->
  progression t step n !! S i = Some b ->
  (b - a == step)%Q.
Proof.
  intros Ha Hb.
  assert (Hi : (S i < n)%nat).
  { apply lookup_lt_Some in Hb. rewrite length_progression in Hb. exact Hb. }
  rewrite progression_lookup in Ha, Hb by lia.
  injection Ha as <-. injection Hb as <-.
  rewrite !after_Qeq. ring.
Qed.

Lemma progression_first t step n x : progression t step n !! 0%nat = Some x -> x = t.
Proof. destruct n; cbn; congruence. Qed.

Lemma initAudioContext_fields m :
  notNull (audioContext (initAudioContext m)) = true /\
  oscillator (initAudioContext m) = oscillator m /\
  gainNode (initAudioContext m) = gainNode m /\
  trace (initAudioContext m) = trace m /\ _bpm (initAudioContext m) = _bpm m /\
  timeOffset (initAudioContext m) = timeOffset m.
Proof.
  unfold initAudioContext. destruct (audioContext m) as [[|]|] eqn:E; cbn; rewrite ?E; cbn; auto 10.
Qed.

Lemma progressed_andThen m o k :
  progressed m o ->
  (forall m1 n, Progressed m m1 n -> progressed m1 (k m1)) ->
  progressed m (o >>> k).
Proof.
  intros Ho Hk. destruct o as [m1|m1|]; cbn in *; auto.
  destruct Ho as (n & Hn). specialize (Hk m1 n Hn).
  destruct (k m1) as [m2|m2|]; cbn in *; auto.
  - destruct Hk as (j & Hj). exists (n + j)%nat. eapply Progressed_trans; eauto.
  - destruct Hk as (j & Hj). exists (n + j)%nat.
    destruct Hn as (t1 & x1 & b1 & o1).
    rewrite Hj, t1, x1, b1, <- app_assoc, progression_app. reflexivity.
Qed.

Section Schedule.

Variable handlers : Callback -> CallbackArg -> list Call.
Hypothesis keepsBpm : forall cb arg, Forall (fun c => writesBpm c = false) (handlers cb arg).

Lemma scheduleLoop_progressed fuel now m :
  oscillator m = gainNode m -> progressed m (scheduleLoop handlers fuel now m).
Proof.
  intros Hn. unfold scheduleLoop.
  destruct (negb (_isPlaying m) || negb (notNull (audioContext m))) eqn:E.
  { exists 0%nat. apply Progressed_refl. assumption. }
  apply orb_false_iff in E as [_ E]. apply negb_false_iff in E.
  pose proof (whileDue_progression handlers now keepsBpm fuel now m E Hn) as W.
  destruct (run handlers fuel now (WhileDue now) m) as [m1|m1|]; cbn; auto.
  destruct W as (n & Ht & Hx & Hb & Ha & Ho). exists n. unfold Progressed. cbn.
  rewrite scheduledTimes_app, Ht. cbn. rewrite app_nil_r. auto.
Qed.

Lemma invoke_progressed fuel now c m :
  writesBpm c = false -> oscillator m = gainNode m ->
  progressed m (run handlers fuel now (Invoke c) m).
Proof.
  intros Hc Hn.
  pose proof (run_frame handlers now fuel (Invoke c) m I) as F.
  pose proof (run_keeps_bpm handlers now keepsBpm fuel (Invoke c) m) as B.
  destruct (run handlers fuel now (Invoke c) m) as [m1|m1|]; cbn in *; auto.
  - exists 0%nat. eapply Progressed_Frame; [apply Progressed_refl; assumption|exact F|].
    apply B; [exact Hc|reflexivity].
  - exists 0%nat. destruct F as [_ _ _ _ (evs & t & s) _ _ _].
    rewrite t, scheduledTimes_app, s. reflexivity.
Qed.

Lemma notify_progressed fuel now m :
  oscillator m = gainNode m ->
  progressed m (notifyStateChange handlers fuel now m).
Proof.
  intros Hn. unfold notifyStateChange.
  pose proof (run_frame handlers now fuel (StateLoop (state m) 0) m I) as F.
  pose proof (run_keeps_bpm handlers now keepsBpm fuel (StateLoop (state m) 0) m) as B.
  destruct (run handlers fuel now (StateLoop (state m) 0) m) as [m1|m1|]; cbn in *; auto.
  - exists 0%nat. eapply Progressed_Frame; [apply Progressed_refl; assumption|exact F|].
    apply B; [exact I|reflexivity].
  - exists 0%nat. destruct F as [_ _ _ _ (evs & t & s) _ _ _].
    rewrite t, scheduledTimes_app, s. reflexivity.
Qed.

Lemma perform_progressed fuel acts : forall m,
  Forall actionKeepsBpm acts -> oscillator m = gainNode m ->
  progressed m (perform handlers fuel acts m).
Proof.
  induction acts as [|a acts IH]; intros m Ha Hn.
  - exists 0%nat. apply Progressed_refl. assumption.
  - inversion Ha as [|? ? Ha1 Ha2]; subst. cbn [perform].
    apply progressed_andThen.
    + destruct a as [now|now c]; cbn [act].
      * apply scheduleLoop_progressed. assumption.
      * apply invoke_progressed; assumption.
    + intros m1 n Hp. apply IH; [assumption|apply Hp].
Qed.

(** A run from [start()] on: whatever the timer and the user do next, as long
    as nobody writes the tempo, the target times form one progression. *)
Lemma run_progressed fuel now0 acts m :
  Forall actionKeepsBpm acts -> _isPlaying m = false -> oscillator m = gainNode m ->
  progressed (starting now0 m)
    (start handlers fuel now0 m >>> perform handlers fuel acts).
Proof.
  intros Ha Hp Hn. unfold start. rewrite Hp. fold (starting now0 m).
  assert (Hs : oscillator (starting now0 m) = gainNode (starting now0 m)).
  { unfold starting. cbn. destruct (initAudioContext_fields m) as (_ & o & g & _).
    congruence. }
  apply progressed_andThen; [apply progressed_andThen|].
  - apply scheduleLoop_progressed. assumption.
  - intros m1 n P. apply notify_progressed. apply P.
  - intros m1 n P. apply perform_progressed; [assumption|apply P].
Qed.

End Schedule.


(** ** Pause and resume *)

Lemma stopped_fields now m :
  notNull (audioContext m) = true ->
  _isPlaying (stopped now m) = false /\
  timeOffset (stopped now m) = (nextTickTime m - now)%Q /\
  oscillator (stopped now m) = gainNode (stopped now m) /\
  _pulse (stopped now m) = 0.
Proof.
  intros Hc. unfold stopped, cleanupAudioNodes. cbn. rewrite Hc.
  repeat (cbn; match goal with
               | |- context [if ?b then _ else _] => destruct b eqn:?
               end); repeat split; auto; congruence.
Qed.

Section Resume.

Variable handlers : Callback -> CallbackArg -> list Call.

(** The first target time a pass hands over is the [nextTickTime] it found;
    a pass that hands over none leaves [nextTickTime] as it was. *)
Lemma whileDue_first now fuel : forall ct m m',
  notNull (audioContext m) = true -> oscillator m = gainNode m ->
  final (run handlers fuel now (WhileDue ct) m) = Some m' ->
  exists l, scheduledTimes (trace m') = scheduledTimes (trace m) ++ l /\
            match l with
            | [] => nextTickTime m' = nextTickTime m
            | t :: _ => t = nextTickTime m
            end.
Proof.
  induction fuel as [|fuel IH]; intros ct m m' Hc Hn H; [discriminate|].
  cbn [run] in H. destruct (Qltb _ _).
  2:{ injection H as <-. exists []. rewrite app_nil_r. auto. }
  apply final_andThen in H as [H|(m1 & H1 & H)].
  - assert (T : Ticked (nextTickTime m) m m').
    { eapply tick_ticked; eauto. rewrite H. reflexivity. }
    exists [nextTickTime m]. split; [apply T|reflexivity].
  - assert (T : Ticked (nextTickTime m) m m1).
    { eapply tick_ticked; eauto. rewrite H1. reflexivity. }
    destruct T as [a b c d e f].
    apply IH in H as (l & Hl & _); cbn; try congruence.
    exists (nextTickTime m :: l). cbn in Hl. rewrite Hl, f, <- app_assoc. auto.
Qed.

(** While the metronome is stopped nothing the timer or the user does (short
    of starting it) moves [timeOffset]. *)
Lemma perform_stopped fuel acts : forall m m',
  _isPlaying m = false -> oscillator m = gainNode m ->
  perform handlers fuel acts m = Ok m' ->
  _isPlaying m' = false /\ timeOffset m' = timeOffset m /\ oscillator m' = gainNode m'.
Proof.
  induction acts as [|a acts IH]; intros m m' Hp Hn H.
  - injection H as <-. auto.
  - cbn [perform] in H.
    destruct (act handlers fuel a m) as [m1|m1|] eqn:E; cbn in H; try discriminate.
    assert (S1 : _isPlaying m1 = false /\ timeOffset m1 = timeOffset m /\
                 oscillator m1 = gainNode m1).
    { destruct a as [now|now c]; cbn [act] in E.
      - unfold scheduleLoop in E. rewrite Hp in E. cbn in E. injection E as <-. auto.
      - pose proof (run_frame handlers now fuel (Invoke c) m I) as F. rewrite E in F.
        cbn in F. destruct (frame_stopped _ _ F Hp) as (A & B & _).
        pose proof (frame_nodes _ _ F Hn). auto. }
    destruct S1 as (A & B & C). destruct (IH m1 m' A C H) as (A' & B' & C').
    repeat split; congruence.
Qed.

End Resume.

(** C2: a metronome stopped at clock time [T] while [nextTickTime = T + d]
    and started again at [T'] resumes [d] after [T']: the first target time
    [start()] hands to the oscillator is [T' + d], or, when that is still
    beyond the window, [nextTickTime] is [T' + d] when [start()] is done.
    Nothing the user or the timer does in between matters, as long as each
    call returns. *)
Theorem C2_resume_keeps_the_phase
  (handlers : Callback -> CallbackArg -> list Call) (fuel : nat) (T T' d : Q)
  (between : list Action) (m m1 m2 m3 : MetronomeCore) :
  _isPlaying m = true -> notNull (audioContext m) = true ->
  oscillator m = gainNode m ->
  (nextTickTime m == T + d)%Q ->
  run handlers fuel T (Invoke Stop) m = Ok m1 ->
  perform handlers fuel between m1 = Ok m2 ->
  final (start handlers fuel T' m2) = Some m3 ->
  (timeOffset m2 == d)%Q /\
  exists l, scheduledTimes (trace m3) = scheduledTimes (trace m2) ++ l /\
            match l with
            | [] => (nextTickTime m3 == T' + d)%Q
            | t :: _ => (t == T' + d)%Q
            end.
Proof.
  intros Hp Hc Hn Hd Hstop Hbetween Hstart.
  (* stop *)
  destruct fuel as [|fuel']; [discriminate|].
  rewrite run_Invoke in Hstop. cbn [prepare] in Hstop. rewrite Hp in Hstop. cbn in Hstop.
  pose proof (run_frame handlers T fuel' (StateLoop (state (stopped T m)) 0)
                (stopped T m) I) as F.
  rewrite Hstop in F. cbn in F.
  destruct (stopped_fields T m Hc) as (S1 & S2 & S3 & _).
  destruct (frame_stopped _ _ F S1) as (P1 & O1 & _).
  pose proof (frame_nodes _ _ F S3) as N1.
  (* in between *)
  destruct (perform_stopped handlers (S fuel') between m1 m2 P1 N1 Hbetween)
    as (P2 & O2 & N2).
  assert (Ho : (timeOffset m2 == d)%Q).
  { rewrite O2, O1, S2, Hd. ring. }
  split; [exact Ho|].
  (* start *)
  unfold start in Hstart. rewrite P2 in Hstart. fold (starting T' m2) in Hstart.
  destruct (initAudioContext_fields m2) as (I1 & I2 & I3 & I4 & _ & I6).
  assert (Hs : scheduledTimes (trace (starting T' m2)) = scheduledTimes (trace m2) /\
               nextTickTime (starting T' m2) = (T' + timeOffset m2)%Q /\
               notNull (audioContext (starting T' m2)) = true /\
               oscillator (starting T' m2) = gainNode (starting T' m2) /\
               _isPlaying (starting T' m2) = true).
  { unfold starting. cbn. rewrite I2, I3, I4, I6. auto. }
  destruct Hs as (Z1 & Z2 & Z3 & Z4 & Z5).
  unfold scheduleLoop in Hstart. rewrite Z5, Z3 in Hstart. cbn [negb orb] in Hstart.
  set (loop := run handlers (S fuel') T' (WhileDue T') (starting T' m2)) in *.
  pose proof (whileDue_first handlers T' (S fuel') T' (starting T' m2)) as W.
  fold loop in W.
  assert (G : forall m', final loop = Some m' ->
            exists l, scheduledTimes (trace m') = scheduledTimes (trace m2) ++ l /\
                      match l with
                      | [] => (nextTickTime m' == T' + d)%Q
                      | t :: _ => (t == T' + d)%Q
                      end).
  { intros m' Hm. destruct (W m' Z3 Z4 Hm) as (l & Hl & Hf). exists l.
    rewrite Hl, Z1. split; [reflexivity|].
    destruct l as [|t l]; rewrite Hf, Z2, Ho; reflexivity. }
  apply final_andThen in Hstart as [Hstart|(m4 & H4 & Hstart)].
  - destruct loop as [m5|m5|] eqn:E; cbn in Hstart; try discriminate.
    injection Hstart as ->. apply G. reflexivity.
  - destruct loop as [m5|m5|] eqn:E; cbn in H4; try discriminate.
    injection H4 as <-.
    destruct (G m5 eq_refl) as (l & Hl & Hf).
    unfold notifyStateChange in Hstart.
    match type of Hstart with
    | final (run _ _ _ ?t ?x) = _ =>
        pose proof (run_frame handlers T' (S fuel') t x I) as F2; rewrite Hstart in F2
    end.
    destruct F2 as [a _ _ _ (evs & t & s) _ _ _]. cbn in a, t.
    exists l. rewrite t, scheduledTimes_app, s, app_nil_r, scheduledTimes_app. cbn.
    rewrite app_nil_r. split; [exact Hl|].
    destruct l; [rewrite a|]; exact Hf.
Qed.

Lemma C2_witness :
  exists m1 m2 m3 l,
    run observers 20 (3 # 10) (Invoke Stop) aboutToTick = Ok m1 /\
    perform observers 20 [UserCalls (4 # 10) (SetAccent 1 true); TimerFires 1] m1 = Ok m2 /\
    final (start observers 20 2 m2) = Some m3 /\
    scheduledTimes (trace m3) = scheduledTimes (trace m2) ++ l /\
    match l with
    | [] => (nextTickTime m3 == 2 + (1 # 20))%Q
    | t :: _ => (t == 2 + (1 # 20))%Q
    end.
Proof.
  eexists. eexists. eexists.
  match goal with
  | |- exists l, _ = Ok ?m1 /\ _ = Ok ?m2 /\ _ = Some ?m3 /\ _ =>
      assert (H1 : run observers 20 (3 # 10) (Invoke Stop) aboutToTick = Ok m1)
        by (vm_compute; reflexivity);
      assert (H2 : perform observers 20
                     [UserCalls (4 # 10) (SetAccent 1 true); TimerFires 1] m1 = Ok m2)
        by (vm_compute; reflexivity);
      assert (H3 : final (start observers 20 2 m2) = Some m3)
        by (vm_compute; reflexivity);
      destruct (C2_resume_keeps_the_phase observers 20 (3 # 10) 2 (1 # 20)
                  [UserCalls (4 # 10) (SetAccent 1 true); TimerFires 1]
                  aboutToTick m1 m2 m3
                  eq_refl eq_refl eq_refl eq_refl H1 H2 H3) as (_ & l & Hl & Hf);
      exists l; split; [exact H1|split; [exact H2|split; [exact H3|split; [exact Hl|exact Hf]]]]
  end.
Defined.
(** ** One pass of the scheduler *)

Lemma interval_pos (b : Q) : (0 < b)%Q -> (0 < 60 / b)%Q.
Proof.
  intros H. unfold Qdiv. apply Qmult_lt_0_compat; [reflexivity|].
  apply Qinv_lt_0_compat. assumption.
Qed.

Lemma after_lt t step i j :
  (0 < step)%Q -> (i < j)%nat -> (after t step i < after t step j)%Q.
Proof.
  intros Hs Hij. induction Hij as [|j Hij IH].
  - rewrite after_S. lra.
  - rewrite after_S. lra.
Qed.

Lemma after_le t step i j :
  (0 < step)%Q -> (i <= j)%nat -> (after t step i <= after t step j)%Q.
Proof.
  intros Hs Hij. destruct (Nat.eq_dec i j) as [->|Hne]; [apply Qle_refl|].
  apply Qlt_le_weak, after_lt; [assumption|lia].
Qed.

Lemma progression_lower t step n x :
  (0 < step)%Q -> x ∈ progression t step n -> (t <= x)%Q.
Proof.
  intros Hs Hx. apply list_elem_of_lookup in Hx as (i & Hi).
  assert (Hn : (i < n)%nat).
  { apply lookup_lt_Some in Hi. rewrite length_progression in Hi. exact Hi. }
  rewrite progression_lookup in Hi by assumption. injection Hi as <-.
  apply (after_le t step 0 i Hs). lia.
Qed.

Lemma progression_sorted step n : forall t,
  (0 < step)%Q -> StronglySorted Qlt (progression t step n).
Proof.
  induction n as [|n IH]; intros t Hs; cbn; constructor; [apply IH; assumption|].
  apply Forall_forall. intros x Hx.
  pose proof (progression_lower _ _ _ _ Hs Hx). lra.
Qed.

(** The bounds on the window say that exactly the first [k] upcoming ticks
    are inside it. *)
Lemma due_exactly t step horizon (k : nat) :
  (0 < step)%Q -> (1 <= k)%nat ->
  (t + inject_Z (Z.of_nat k - 1) * step < horizon)%Q ->
  (horizon <= t + inject_Z (Z.of_nat k) * step)%Q ->
  (forall j, (j < k)%nat -> (after t step j < horizon)%Q) /\
  (horizon <= after t step k)%Q.
Proof.
  intros Hs Hk Hin Hout. split.
  - intros j Hj. eapply Qle_lt_trans; [apply (after_le t step j (k - 1) Hs); lia|].
    rewrite after_Qeq. replace (Z.of_nat (k - 1)) with (Z.of_nat k - 1) by lia.
    exact Hin.
  - rewrite after_Qeq. exact Hout.
Qed.

Section Pass.

Variable handlers : Callback -> CallbackArg -> list Call.
Variable now : Q.
Hypothesis passive : forall cb arg, handlers cb arg = [].

(** The whole of [scheduleLoop] when exactly [k] ticks are due. *)
Lemma scheduleLoop_passive k m fuel :
  _isPlaying m = true -> notNull (audioContext m) = true ->
  (forall j, (j < k)%nat ->
     (after (nextTickTime m) (60 / _bpm m) j < now + scheduleAheadTime (config m))%Q) ->
  (now + scheduleAheadTime (config m) <= after (nextTickTime m) (60 / _bpm m) k)%Q ->
  (fuelFor m k <= fuel)%nat ->
  exists delay,
    scheduleLoop handlers fuel now m =
    Ok (with_scheduleIntervalId (Some delay) (emit (TimerArmed delay) (scheduledN k m))).
Proof.
  intros Hp Hc Hin Hout Hf. unfold scheduleLoop. rewrite Hp, Hc. cbn [negb orb].
  rewrite (whileDue_passive handlers now passive now k m fuel Hin Hout Hf).
  cbn [andThen]. eexists. reflexivity.
Qed.

End Pass.

Lemma scheduleLoop_mono handlers fuel fuel' now m :
  (fuel <= fuel')%nat ->
  scheduleLoop handlers fuel now m <> OutOfFuel ->
  scheduleLoop handlers fuel' now m = scheduleLoop handlers fuel now m.
Proof.
  intros Hf. unfold scheduleLoop.
  destruct (negb (_isPlaying m) || negb (notNull (audioContext m))); [reflexivity|].
  intros H. apply andThen_mono; auto. intros Hn. apply run_mono; assumption.
Qed.



Lemma interval_neg (b : Q) : (b < 0)%Q -> (60 / b < 0)%Q.
Proof.
  intros H.
  assert (Hnz : ~ (b == 0)%Q) by (intros Z0; rewrite Z0 in H; apply (Qlt_irrefl 0 H)).
  assert (E : (60 / b == - (60 / - b))%Q) by (field; exact Hnz).
  rewrite E. pose proof (interval_pos (- b) ltac:(lra)). lra.
Qed.

Section Termination.

Variable handlers : Callback -> CallbackArg -> list Call.
Variable now : Q.
Hypothesis passive : forall cb arg, handlers cb arg = [].

(** With a positive tempo the loop returns after some number [n] of turns. *)
Lemma whileDue_terminates ct m :
  (0 < _bpm m)%Q ->
  exists n,
    (forall fuel, (fuelFor m n <= fuel)%nat ->
       run handlers fuel now (WhileDue ct) m = Ok (scheduledN n m)) /\
    (ct + scheduleAheadTime (config m) <= nextTickTime (scheduledN n m))%Q.
Proof.
  intros Hb.
  destruct (due_count (nextTickTime m) (60 / _bpm m) (ct + scheduleAheadTime (config m))
              (interval_pos _ Hb)) as (n & Hout & Hin).
  exists n. split.
  - intros fuel Hf. apply whileDue_passive; assumption.
  - destruct (scheduledN_fields n m) as (-> & _). exact Hout.
Qed.

(** With a negative tempo a pass that finds a tick due never returns: each
    turn moves [nextTickTime] further back. *)
Lemma whileDue_negative_bpm_never_returns ct fuel : forall m,
  (_bpm m < 0)%Q ->
  (nextTickTime m < ct + scheduleAheadTime (config m))%Q ->
  run handlers fuel now (WhileDue ct) m = OutOfFuel.
Proof.
  induction fuel as [|fuel IH]; intros m Hb Hd; [reflexivity|].
  cbn [run]. rewrite (proj2 (Qltb_lt _ _) Hd).
  destruct (run handlers fuel now (Tick (nextTickTime m)) m) as [m1|m1|] eqn:E; cbn.
  - assert (Hm1 : nextTickTime m1 = nextTickTime m /\ _bpm m1 = _bpm m /\
                  config m1 = config m).
    { destruct (tick_frame handlers now fuel (nextTickTime m) m m1) as (A & _ & C & _);
        [rewrite E; reflexivity|].
      repeat split; try assumption.
      eapply (tick_keeps_bpm handlers now); [|rewrite E; reflexivity].
      intros cb arg. rewrite passive. constructor. }
    destruct Hm1 as (A & B & C). apply IH; cbn.
    + congruence.
    + rewrite A, C. unfold calculateInterval. rewrite B.
      pose proof (interval_neg _ Hb). lra.
  - exfalso. eapply (tick_never_throws handlers now); [|exact E].
    intros cb arg. rewrite passive. constructor.
  - reflexivity.
Qed.

End Termination.


(** ** The observer registries *)

(** C8 (the code departs from the claim): callbacks [1] and [2] are
    registered for ticks, in this order, and [1] calls the unsubscribe
    function [onTick] returned to it the first time it is called.  [start()]
    schedules the tick at time 0: [1] is called and removes itself, the
    [for ... of] loop over the live array moves on to position 1 of what is
    now [[2]], and ends.  Callback [2] is still registered and was not called
    for that tick; with observers that only observe it is. *)
Theorem C8_unsubscribing_during_a_tick_skips_the_next_callback :
  (exists m',
     start oneShot 20 0 twoListeners = Ok m' /\
     scheduledTimes (trace m') = [0%Q] /\
     tickTimes 1%nat (trace m') = [0%Q] /\
     tickCallbacks m' = [2%nat] /\
     tickTimes 2%nat (trace m') = []) /\
  (exists m',
     start observers 20 0 twoListeners = Ok m' /\
     tickTimes 2%nat (trace m') = [0%Q]).
Proof.
  split; (eexists; split; [vm_compute; reflexivity|]); repeat split; reflexivity.
Qed.
(** * Further properties of the class *)

(** ** The tempo *)

Lemma clampBpm_inverted m value :
  (maxBpm (config m) < minBpm (config m))%Q ->
  (clampBpm m value == minBpm (config m))%Q.
Proof.
  intros H. unfold clampBpm. apply Q.max_l.
  eapply Qle_trans; [apply Q.le_min_l|]. apply Qlt_le_weak. assumption.
Qed.

(** What a call that writes the tempo asks for. *)
Lemma prepare_writesBpm now c m :
  writesBpm c = true ->
  exists value, prepare now c m = Notify (with_bpm (clampBpm m value) m) /\
    value = match c with
            | SetBpm v => v
            | IncreaseBpm a => (_bpm m + a)%Q
            | DecreaseBpm a => (_bpm m - a)%Q
            | _ => 0%Q
            end.
Proof.
  destruct c; try discriminate; intros _; eexists; split; reflexivity.
Qed.

Section Tempo.

Variable handlers : Callback -> CallbackArg -> list Call.
Variable now : Q.



(** Callbacks that never write the tempo. *)
Hypothesis keepsBpm : forall cb arg, Forall (fun c => writesBpm c = false) (handlers cb arg).

Lemma tempo_written fuel c m m' :
  writesBpm c = true ->
  final (run handlers fuel now (Invoke c) m) = Some m' ->
  config m' = config m /\
  exists value, _bpm m' = clampBpm m value /\
    value = match c with
            | SetBpm v => v
            | IncreaseBpm a => (_bpm m + a)%Q
            | DecreaseBpm a => (_bpm m - a)%Q
            | _ => 0%Q
            end.
Proof.
  intros Hc H. destruct fuel as [|fuel]; [discriminate|].
  rewrite run_Invoke in H.
  destruct (prepare_writesBpm now c m Hc) as (v & E & Hv). rewrite E in H.
  match type of H with final (run _ _ _ ?t ?x) = _ =>
    pose proof (run_frame handlers now fuel t x I) as F; rewrite H in F;
    pose proof (run_keeps_bpm handlers now keepsBpm fuel t x m' I H) as B
  end.
  split; [apply (frame_config _ _ F)|]. exists v. split; [exact B|exact Hv].
Qed.


End Tempo.



(** ** Meter and accents *)

Lemma calls_app a b : calls (a ++ b) = calls a ++ calls b.
Proof.
  induction a as [|e a IH]; [reflexivity|].
  destruct e; cbn; rewrite ?IH; reflexivity.
Qed.

Lemma calls_called arg l :
  calls (map (fun cb => Called cb arg) l) = map (fun cb => (cb, arg)) l.
Proof. induction l as [|c l IH]; cbn; rewrite ?IH; reflexivity. Qed.

Lemma since_notifiedState m :
  since m (notifiedState m) =
  map (fun cb => Called cb (StateArg (state m))) (stateChangeCallbacks m).
Proof. apply since_app. reflexivity. Qed.

Section PassiveCalls.

Variable handlers : Callback -> CallbackArg -> list Call.
Variable now : Q.
Hypothesis passive : forall cb arg, handlers cb arg = [].

(** A call that reaches its notification, with observers that only observe:
    the object as the call left it, and every state callback called once, in
    registration order, with the snapshot of that object. *)
Lemma invoke_passive fuel c m m1 :
  prepare now c m = Notify m1 ->
  (length (stateChangeCallbacks m1) + 3 <= fuel)%nat ->
  run handlers fuel now (Invoke c) m = Ok (notifiedState m1).
Proof.
  intros Hp Hf. destruct fuel as [|fuel]; [lia|].
  rewrite run_Invoke, Hp. apply notify_passive; [assumption|lia].
Qed.

End PassiveCalls.

(** X4: the meter setter and [setMeter] without accents, given a meter from 1
    up to the largest array length, store the meter, re-derive the accents as
    first beat accented and the rest not, leave pulse and transport alone,
    and notify every state callback once, in registration order, with the new
    state (observers that only observe). *)
Theorem meter_setter_rederives_accents
  (handlers : Callback -> CallbackArg -> list Call) (now : Q) (m : MetronomeCore)
  (value : Z) :
  (forall cb arg, handlers cb arg = []) ->
  1 <= value < 2 ^ 32 ->
  exists fuel0, forall fuel, (fuel0 <= fuel)%nat ->
    exists m',
      run handlers fuel now (Invoke (SetMeterProp value)) m = Ok m' /\
      run handlers fuel now (Invoke (SetMeter value None)) m = Ok m' /\
      _meter m' = value /\
      _accents m' = true :: replicate (Z.to_nat value - 1) false /\
      _pulse m' = _pulse m /\ _isPlaying m' = _isPlaying m /\ _bpm m' = _bpm m /\
      calls (since m m') = map (fun cb => (cb, StateArg (state m'))) (stateChangeCallbacks m).
Proof.
  intros Hp [H1 H2].
  destruct (createDefaultAccents value) as [a|] eqn:Ea.
  2:{ unfold createDefaultAccents in Ea.
      rewrite (proj2 (Z.leb_le 0 value)), (proj2 (Z.ltb_lt value (2 ^ 32))) in Ea by lia.
      discriminate. }
  pose proof (createDefaultAccents_first value a Ea ltac:(lia)) as Hfirst.
  assert (Hprep : forall c, c = SetMeterProp value \/ c = SetMeter value None ->
                  prepare now c m = Notify (with_accents a (with_meter value m))).
  { intros c [->| ->]; cbn [prepare]; rewrite (proj2 (Z.ltb_ge value 1)), Ea by lia;
      reflexivity. }
  exists (length (stateChangeCallbacks m) + 3)%nat. intros fuel Hf.
  exists (notifiedState (with_accents a (with_meter value m))).
  split; [apply (invoke_passive handlers now Hp); [apply Hprep; auto|exact Hf]|].
  split; [apply (invoke_passive handlers now Hp); [apply Hprep; auto|exact Hf]|].
  cbn. repeat split; try assumption.
  erewrite since_app by reflexivity. apply calls_called.
Qed.

Lemma meter_setter_rederives_accents_witness :
  exists m', run observers 5 0 (Invoke (SetMeterProp 3)) observed = Ok m' /\
    _accents m' = [true; false; false] /\
    map fst (calls (since observed m')) = [3%nat; 4%nat].
Proof.
  destruct (meter_setter_rederives_accents observers 0 observed 3 (fun _ _ => eq_refl)
              ltac:(lia)) as (fuel0 & H).
  destruct (H (fuel0 + 5)%nat ltac:(lia)) as (m' & Hm & _ & _ & Ha & _ & _ & _ & Hc).
  exists m'. split.
  - rewrite <- Hm. symmetry. apply run_mono; [lia|]. vm_compute. discriminate.
  - split; [exact Ha|]. rewrite Hc. reflexivity.
Defined.

(** X5: a meter of [2^32] or more makes [new Array(meter)] throw after the
    meter has been assigned: the meter setter and [setMeter] without accents
    throw, whatever the callbacks, leaving the object with the new meter and
    the old accents (so an accents array that matched the meter no longer
    does) and notifying nobody. *)
Theorem meter_beyond_array_length_throws
  (handlers : Callback -> CallbackArg -> list Call) (fuel : nat) (now : Q)
  (m : MetronomeCore) (value : Z) :
  2 ^ 32 <= value ->
  exists m',
    run handlers (S fuel) now (Invoke (SetMeterProp value)) m = Throw m' /\
    run handlers (S fuel) now (Invoke (SetMeter value None)) m = Throw m' /\
    _meter m' = value /\ _accents m' = _accents m /\ trace m' = trace m /\
    (accentsMatchMeter m -> _meter m <> value -> ~ accentsMatchMeter m').
Proof.
  intros H. exists (with_meter value m).
  assert (Ea : createDefaultAccents value = None).
  { unfold createDefaultAccents.
    rewrite (proj2 (Z.ltb_ge value (2 ^ 32))) by lia. rewrite andb_false_r. reflexivity. }
  rewrite !run_Invoke. cbn [prepare].
  rewrite (proj2 (Z.ltb_ge value 1)), Ea by lia.
  repeat split. unfold accentsMatchMeter. cbn. congruence.
Qed.

Lemma meter_beyond_array_length_throws_witness :
  exists m',
    run observers 1 0 (Invoke (SetMeterProp (2 ^ 32))) defaultMetronome = Throw m' /\
    _meter m' = 2 ^ 32 /\ _accents m' = [true; false; false; false].
Proof.
  destruct (meter_beyond_array_length_throws observers 0 0 defaultMetronome (2 ^ 32)
              ltac:(lia)) as (m' & H1 & _ & Hm & Ha & _).
  exists m'. split; [exact H1|]. split; [exact Hm|exact Ha].
Defined.

Lemma accentsInRange_spec i m :
  accentsInRange i m = true <-> 0 <= i < Z.of_nat (length (_accents m)).
Proof.
  unfold accentsInRange. rewrite andb_true_iff, Z.leb_le, Z.ltb_lt. tauto.
Qed.



(** X7: [setAccent(i, v)] with [i] inside the array writes exactly that
    position and notifies every state callback once; with [i] outside the
    array (negative, or the length or more) [setAccent] and [toggleAccent]
    return at once, whatever the callbacks: nothing is written and nobody is
    notified. *)
Theorem setAccent_writes_one_beat
  (handlers : Callback -> CallbackArg -> list Call) (now : Q) (m : MetronomeCore)
  (beatIndex : Z) (value : bool) :
  (0 <= beatIndex < Z.of_nat (length (_accents m)) ->
   (forall cb arg, handlers cb arg = []) ->
   exists fuel0, forall fuel, (fuel0 <= fuel)%nat ->
     exists m',
       run handlers fuel now (Invoke (SetAccent beatIndex value)) m = Ok m' /\
       _accents m' !! Z.to_nat beatIndex = Some value /\
       (forall j, j <> Z.to_nat beatIndex -> _accents m' !! j = _accents m !! j) /\
       length (_accents m') = length (_accents m) /\
       calls (since m m') = map (fun cb => (cb, StateArg (state m'))) (stateChangeCallbacks m)) /\
  (beatIndex < 0 \/ Z.of_nat (length (_accents m)) <= beatIndex ->
   forall fuel,
     run handlers (S fuel) now (Invoke (SetAccent beatIndex value)) m = Ok m /\
     run handlers (S fuel) now (Invoke (ToggleAccent beatIndex)) m = Ok m).
Proof.
  split.
  - intros Hi Hp.
    set (m1 := with_accents (<[Z.to_nat beatIndex := value]> (_accents m)) m).
    assert (P1 : prepare now (SetAccent beatIndex value) m = Notify m1).
    { cbn [prepare]. rewrite (proj2 (accentsInRange_spec beatIndex m) Hi). reflexivity. }
    exists (length (stateChangeCallbacks m) + 3)%nat. intros fuel Hf.
    exists (notifiedState m1).
    split; [apply (invoke_passive handlers now Hp); [exact P1|exact Hf]|].
    cbn. split; [apply list_lookup_insert_eq; lia|].
    split; [intros j Hj; apply list_lookup_insert_ne; congruence|].
    split; [apply length_insert|].
    erewrite since_app by reflexivity. apply calls_called.
  - intros Ho fuel.
    assert (E : accentsInRange beatIndex m = false).
    { destruct (accentsInRange beatIndex m) eqn:E; [|reflexivity].
      apply accentsInRange_spec in E. lia. }
    rewrite !run_Invoke. cbn [prepare]. rewrite E. auto.
Qed.

Lemma setAccent_writes_one_beat_witness :
  (exists m', run observers 5 0 (Invoke (SetAccent 1 true)) observed = Ok m' /\
              _accents m' !! 1%nat = Some true) /\
  run observers 5 0 (Invoke (SetAccent 4 true)) observed = Ok observed.
Proof.
  split.
  - destruct (proj1 (setAccent_writes_one_beat observers 0 observed 1 true)
                ltac:(vm_compute; split; [discriminate|reflexivity])
                (fun _ _ => eq_refl)) as (fuel0 & H).
    destruct (H (fuel0 + 5)%nat ltac:(lia)) as (m' & Hm & Ha & _).
    exists m'. split; [|exact Ha].
    rewrite <- Hm. symmetry. apply run_mono; [lia|]. vm_compute. discriminate.
  - apply (proj2 (setAccent_writes_one_beat observers 0 observed 4 true)
             ltac:(right; vm_compute; discriminate) 4%nat).
Defined.
(** ** The registries *)

Lemma indexOf_absent l cb : cb ∉ l -> indexOf l cb = -1.
Proof.
  induction l as [|x l IH]; intros H; [reflexivity|]. cbn.
  apply not_elem_of_cons in H as [Hx Hl].
  rewrite (proj2 (Nat.eqb_neq x cb)) by congruence. rewrite IH by assumption. reflexivity.
Qed.

Lemma indexOf_first l1 l2 cb :
  cb ∉ l1 -> indexOf (l1 ++ cb :: l2) cb = Z.of_nat (length l1).
Proof.
  induction l1 as [|x l1 IH]; intros H; cbn.
  - rewrite Nat.eqb_refl. reflexivity.
  - apply not_elem_of_cons in H as [Hx Hl].
    rewrite (proj2 (Nat.eqb_neq x cb)) by congruence. rewrite IH by assumption.
    destruct (Z.of_nat (length l1) =? -1) eqn:E; [apply Z.eqb_eq in E; lia|]. lia.
Qed.

(** Every list splits at the first occurrence of [cb], if there is one. *)
Lemma first_occurrence (l : list Callback) cb :
  cb ∈ l -> exists l1 l2, l = l1 ++ cb :: l2 /\ cb ∉ l1.
Proof.
  induction l as [|x l IH]; intros H; [inversion H|].
  destruct (Nat.eq_dec x cb) as [->|Hne].
  - exists [], l. split; [reflexivity|]. apply not_elem_of_nil.
  - apply elem_of_cons in H as [H|H]; [congruence|].
    destruct (IH H) as (l1 & l2 & -> & Hn). exists (x :: l1), l2. split; [reflexivity|].
    apply not_elem_of_cons. split; [congruence|assumption].
Qed.

(** The same fact, for the proofs below. *)
Lemma unsubscribe_first (cb : Callback) (l1 l2 : list Callback) :
  cb ∉ l1 ->
  unsubscribe cb (l1 ++ cb :: l2) = l1 ++ l2 /\
  (cb ∉ l2 -> unsubscribe cb (l1 ++ l2) = l1 ++ l2).
Proof.
  intros H1. split.
  - unfold unsubscribe. rewrite indexOf_first by assumption.
    rewrite (proj2 (Z.ltb_lt (-1) (Z.of_nat (length l1)))) by lia.
    rewrite Nat2Z.id. apply delete_middle.
  - intros H2. unfold unsubscribe. rewrite indexOf_absent; [reflexivity|].
    rewrite elem_of_app. tauto.
Qed.

(** X8: the unsubscribe function removes exactly the earliest registration of
    its callback and leaves the order of the others; when the callback is not
    (or no longer) registered it changes nothing, so calling it twice is
    harmless. *)
Theorem unsubscribe_removes_first_registration (cb : Callback) (l1 l2 : list Callback) :
  cb ∉ l1 ->
  unsubscribe cb (l1 ++ cb :: l2) = l1 ++ l2 /\
  (cb ∉ l2 -> unsubscribe cb (l1 ++ l2) = l1 ++ l2).
Proof.
  intros H1. split.
  - unfold unsubscribe. rewrite indexOf_first by assumption.
    rewrite (proj2 (Z.ltb_lt (-1) (Z.of_nat (length l1)))) by lia.
    rewrite Nat2Z.id. apply delete_middle.
  - intros H2. unfold unsubscribe. rewrite indexOf_absent; [reflexivity|].
    rewrite elem_of_app. tauto.
Qed.

Lemma unsubscribe_removes_first_registration_witness :
  unsubscribe 7%nat [3; 7; 4; 7]%nat = [3; 4; 7]%nat /\
  unsubscribe 7%nat [3; 4]%nat = [3; 4]%nat.
Proof.
  split.
  - apply (proj1 (unsubscribe_removes_first_registration 7%nat [3%nat] [4; 7]%nat
                    ltac:(intros H; repeat (apply elem_of_cons in H as [H|H];
                                            [discriminate|]); inversion H))).
  - apply (proj2 (unsubscribe_removes_first_registration 7%nat [3; 4]%nat []
                    ltac:(intros H; repeat (apply elem_of_cons in H as [H|H];
                                            [discriminate|]); inversion H))
             ltac:(apply not_elem_of_nil)).
Defined.

Lemma with_tickCallbacks_id m : with_tickCallbacks (tickCallbacks m) m = m.
Proof. destruct m; reflexivity. Qed.

Lemma with_stateChangeCallbacks_id m :
  with_stateChangeCallbacks (stateChangeCallbacks m) m = m.
Proof. destruct m; reflexivity. Qed.

(** X9: subscribing a callback that is not registered and calling the
    unsubscribe function gives back the object as it was; when the callback
    was registered already, the unsubscribe function removes the older
    registration and the newer one stays, at the end of the registry. *)
Theorem subscribe_then_unsubscribe (cb : Callback) (m : MetronomeCore) :
  (cb ∉ tickCallbacks m -> offTick cb (onTick cb m) = m) /\
  (cb ∉ stateChangeCallbacks m -> offStateChange cb (onStateChange cb m) = m) /\
  (forall l1 l2, tickCallbacks m = l1 ++ cb :: l2 -> cb ∉ l1 ->
     tickCallbacks (offTick cb (onTick cb m)) = l1 ++ l2 ++ [cb]) /\
  (forall l1 l2, stateChangeCallbacks m = l1 ++ cb :: l2 -> cb ∉ l1 ->
     stateChangeCallbacks (offStateChange cb (onStateChange cb m)) = l1 ++ l2 ++ [cb]).
Proof.
  repeat split.
  - intros H. unfold offTick, onTick. cbn.
    rewrite (proj1 (unsubscribe_first cb (tickCallbacks m) [] H)).
    rewrite app_nil_r. destruct m; reflexivity.
  - intros H. unfold offStateChange, onStateChange. cbn.
    rewrite (proj1 (unsubscribe_first cb (stateChangeCallbacks m) [] H)).
    rewrite app_nil_r. destruct m; reflexivity.
  - intros l1 l2 E H. unfold offTick, onTick. cbn. rewrite E.
    rewrite <- app_assoc. cbn.
    apply (proj1 (unsubscribe_first cb l1 (l2 ++ [cb]) H)).
  - intros l1 l2 E H. unfold offStateChange, onStateChange. cbn. rewrite E.
    rewrite <- app_assoc. cbn.
    apply (proj1 (unsubscribe_first cb l1 (l2 ++ [cb]) H)).
Qed.

Lemma subscribe_then_unsubscribe_witness :
  offTick 9%nat (onTick 9%nat observed) = observed /\
  tickCallbacks (offTick 7%nat (onTick 7%nat (onTick 8%nat observed))) = [8; 7]%nat.
Proof.
  split.
  - apply (proj1 (subscribe_then_unsubscribe 9%nat observed)).
    intros H. repeat (apply elem_of_cons in H as [H|H]; [discriminate|]). inversion H.
  - apply (proj1 (proj2 (proj2 (subscribe_then_unsubscribe 7%nat
                                   (onTick 8%nat observed)))) [] [8%nat]).
    + reflexivity.
    + apply not_elem_of_nil.
Defined.

Lemma timesCalled_app k cb a b :
  timesCalled k cb (a ++ b) = (timesCalled k cb a + timesCalled k cb b)%nat.
Proof.
  induction a as [|e a IH]; [reflexivity|].
  destruct e as [| | | | | | | | | |c arg]; cbn; rewrite ?IH; try reflexivity.
  destruct (Nat.eqb c cb && _); cbn; rewrite ?IH; reflexivity.
Qed.

Lemma occurrences_app cb l1 l2 :
  occurrences cb (l1 ++ l2) = (occurrences cb l1 + occurrences cb l2)%nat.
Proof.
  induction l1 as [|x l1 IH]; [reflexivity|]. cbn.
  destruct (Nat.eqb x cb); cbn; rewrite IH; reflexivity.
Qed.

Lemma occurrences_zero cb l : occurrences cb l = 0%nat <-> cb ∉ l.
Proof.
  induction l as [|x l IH]; cbn.
  - split; [intros _; apply not_elem_of_nil|reflexivity].
  - rewrite not_elem_of_cons. destruct (Nat.eqb x cb) eqn:E.
    + apply Nat.eqb_eq in E. split; [discriminate|]. intros [H _]. congruence.
    + apply Nat.eqb_neq in E. rewrite IH. split; [intros H; split; congruence|tauto].
Qed.

Lemma unsubscribe_subset cb x l : x ∈ unsubscribe cb l -> x ∈ l.
Proof.
  unfold unsubscribe. destruct (-1 <? indexOf l cb); [|auto].
  generalize (Z.to_nat (indexOf l cb)). intros i. revert i.
  induction l as [|y l IH]; intros [|i] H; cbn in *; auto.
  - apply elem_of_cons. right. exact H.
  - apply elem_of_cons in H as [->|H]; [apply elem_of_cons; left; reflexivity|].
    apply elem_of_cons. right. eapply IH. exact H.
Qed.

Lemma unsubscribe_once cb l : (occurrences cb l <= 1)%nat -> cb ∉ unsubscribe cb l.
Proof.
  intros Ho. destruct (decide (cb ∈ l)) as [Hin|Hout].
  - destruct (first_occurrence l cb Hin) as (l1 & l2 & -> & H1).
    rewrite (proj1 (unsubscribe_first cb l1 l2 H1)).
    rewrite occurrences_app in Ho. cbn in Ho. rewrite Nat.eqb_refl in Ho.
    rewrite elem_of_app. intros [H|H]; [contradiction|].
    apply occurrences_zero in H; [exact H|]. lia.
  - intros H. apply Hout. eapply unsubscribe_subset. exact H.
Qed.

Section Silence.

Variable handlers : Callback -> CallbackArg -> list Call.
Variable tickKind : bool.
Variable cb : Callback.
Hypothesis handlers_leave :
  forall c arg, Forall (fun call => call <> subscribeCall tickKind cb) (handlers c arg).

Local Abbreviation silent := (silent tickKind cb).

Lemma silent_refl m : silent m m.
Proof. intros H. auto. Qed.

Lemma silent_trans m1 m2 m3 : silent m1 m2 -> silent m2 m3 -> silent m1 m3.
Proof.
  intros H12 H23 H1. destruct (H12 H1) as [H2 E2]. destruct (H23 H2) as [H3 E3].
  split; [assumption|congruence].
Qed.

Lemma silent_same m m' :
  registry tickKind m' = registry tickKind m ->
  timesCalled tickKind cb (trace m') = timesCalled tickKind cb (trace m) ->
  silent m m'.
Proof. intros Hr Ht H. rewrite Hr. auto. Qed.

Lemma silent_prepare now c m :
  c <> subscribeCall tickKind cb ->
  match prepare now c m with
  | Return m1 | Notify m1 | Raise m1 => silent m m1
  end.
Proof.
  intros Hc.
  destruct c as [| | | | |? [a|]| | | |x|x|x|x]; cbn [prepare];
    unfold stopped, cleanupAudioNodes;
    repeat (cbn; match goal with
                 | |- context [if ?b then _ else _] => destruct b eqn:?
                 | |- context [match createDefaultAccents ?v with _ => _ end] =>
                     destruct (createDefaultAccents v)
                 end);
    try apply silent_refl;
    try (apply silent_same; [reflexivity|];
         cbn; rewrite ?timesCalled_app; cbn; lia).
  - (* onStateChange *)
    intros H. cbn. split; [|reflexivity].
    destruct tickKind; cbn in *; [exact H|].
    rewrite elem_of_app. intros [Hin|Hin]; [contradiction|].
    apply elem_of_cons in Hin as [->|Hin]; [congruence|inversion Hin].
  - (* the unsubscribe function of onStateChange *)
    intros H. cbn. split; [|reflexivity].
    destruct tickKind; cbn in *; [exact H|].
    intros Hin. apply H. eapply unsubscribe_subset. exact Hin.
  - (* onTick *)
    intros H. cbn. split; [|reflexivity].
    destruct tickKind; cbn in *; [|exact H].
    rewrite elem_of_app. intros [Hin|Hin]; [contradiction|].
    apply elem_of_cons in Hin as [->|Hin]; [congruence|inversion Hin].
  - (* the unsubscribe function of onTick *)
    intros H. cbn. split; [|reflexivity].
    destruct tickKind; cbn in *; [|exact H].
    intros Hin. apply H. eapply unsubscribe_subset. exact Hin.
Qed.

Lemma silent_called c arg m : registered c arg m -> silent m (emit (Called c arg) m).
Proof.
  intros Hr H. split; [destruct tickKind; exact H|].
  cbn. rewrite timesCalled_app. cbn.
  destruct (Nat.eqb c cb) eqn:E; cbn; [|lia].
  apply Nat.eqb_eq in E. subst c.
  destruct arg, tickKind; cbn in *; try lia; contradiction.
Qed.

Lemma run_silent now fuel t m :
  admissible (fun c => c <> subscribeCall tickKind cb) t ->
  related silent silent m (run handlers fuel now t m).
Proof.
  intros Ht. apply run_rule with (allowed := fun c => c <> subscribeCall tickKind cb); auto.
  - apply silent_refl.
  - apply silent_trans.
  - apply silent_trans.
  - intros c m0 Hc. pose proof (silent_prepare now c m0 Hc). destruct (prepare now c m0); auto.
  - apply silent_called.
Qed.

Lemma related_final R m o :
  related R R m o -> forall m', final o = Some m' -> R m m'.
Proof. destruct o; cbn; intros H m' E; try discriminate; injection E as <-; exact H. Qed.

Lemma tick_silent now fuel time m m' :
  final (run handlers fuel now (Tick time) m) = Some m' -> silent m m'.
Proof.
  intros H. destruct fuel as [|fuel]; [discriminate|]. cbn [run] in H.
  set (m1 := playTick time (advancePulse m)) in *.
  assert (H1 : silent m m1).
  { apply silent_same.
    - unfold m1, playTick, createOscillator, advancePulse, registry.
      repeat (cbn; match goal with
                   | |- context [if ?b then _ else _] => destruct b eqn:?
                   end); reflexivity.
    - unfold m1, playTick, createOscillator, advancePulse.
      repeat (cbn; match goal with
                   | |- context [if ?b then _ else _] => destruct b eqn:?
                   end); rewrite ?timesCalled_app; cbn; lia. }
  apply final_andThen in H as [H|(m2 & H2 & H)].
  - eapply silent_trans; [exact H1|].
    pose proof (run_silent now fuel
                  (TickLoop (_pulse m1) (accentAt (_accents m1) (_pulse m1 - 1)) time 0)
                  m1 I) as F.
    rewrite H in F. exact F.
  - eapply silent_trans; [exact H1|]. eapply silent_trans.
    + pose proof (run_silent now fuel
                    (TickLoop (_pulse m1) (accentAt (_accents m1) (_pulse m1 - 1)) time 0)
                    m1 I) as F.
      rewrite H2 in F. exact F.
    + pose proof (run_silent now fuel (StateLoop (state m2) 0) m2 I) as F.
      eapply (related_final silent); [exact F|exact H].
Qed.

Lemma whileDue_silent now fuel : forall ct m m',
  final (run handlers fuel now (WhileDue ct) m) = Some m' -> silent m m'.
Proof.
  induction fuel as [|fuel IH]; intros ct m m' H; [discriminate|].
  cbn [run] in H. destruct (Qltb _ _).
  2:{ injection H as <-. apply silent_refl. }
  apply final_andThen in H as [H|(m1 & H1 & H)].
  - eapply tick_silent. rewrite H. reflexivity.
  - eapply silent_trans; [eapply tick_silent; rewrite H1; reflexivity|].
    eapply silent_trans; [|eapply IH; exact H].
    apply silent_same; reflexivity.
Qed.

Lemma scheduleLoop_silent now fuel m m' :
  final (scheduleLoop handlers fuel now m) = Some m' -> silent m m'.
Proof.
  unfold scheduleLoop. destruct (_ || _).
  { intros [= <-]. apply silent_refl. }
  intros H. apply final_andThen in H as [H|(m1 & H1 & H)].
  - eapply whileDue_silent. rewrite H. reflexivity.
  - eapply silent_trans; [eapply whileDue_silent; rewrite H1; reflexivity|].
    injection H as <-. apply silent_same; [reflexivity|].
    cbn. rewrite timesCalled_app. cbn. lia.
Qed.

Lemma perform_silent fuel acts : forall m m',
  Forall (leavesOut tickKind cb) acts ->
  final (perform handlers fuel acts m) = Some m' -> silent m m'.
Proof.
  induction acts as [|a acts IH]; intros m m' Ha H.
  - injection H as <-. apply silent_refl.
  - inversion Ha as [|? ? Ha1 Ha2]; subst. cbn [perform] in H.
    assert (Hact : forall x, final (act handlers fuel a m) = Some x -> silent m x).
    { intros x Hx. destruct a as [now|now c]; cbn [act] in Hx.
      - eapply scheduleLoop_silent. exact Hx.
      - pose proof (run_silent now fuel (Invoke c) m Ha1) as F.
        eapply (related_final silent); [exact F|exact Hx]. }
    apply final_andThen in H as [H|(m1 & H1 & H)].
    + apply Hact. rewrite H. reflexivity.
    + eapply silent_trans; [apply Hact; rewrite H1; reflexivity|]. eapply IH; eauto.
Qed.

End Silence.


(** ** What a tick does, and when ticks are scheduled *)

Lemma playTick_click time m :
  notNull (audioContext m) = true -> oscillator m = gainNode m ->
  trace (playTick time m) =
    trace m ++ (if oscillator m then [] else [NodesCreated])
    ++ click (if accentAt (_accents m) (_pulse m - 1)
              then accentFrequency (config m) else normalFrequency (config m)) time /\
  oscillator (playTick time m) = true /\ gainNode (playTick time m) = true.
Proof.
  intros Hc Hn. unfold playTick, createOscillator, click. rewrite Hc. cbn.
  destruct (oscillator m) eqn:Eo; cbn; rewrite <- ?Hn, ?Eo; cbn;
    rewrite <- ?app_assoc; cbn; auto.
Qed.

(** X11: one tick, with observers that only observe and a live context: the
    pulse advances; the oscillator and gain are created if the object holds
    none; the click is scheduled at the tick's time, at [accentFrequency] when
    [accents[pulse - 1]] is set and at [normalFrequency] when it is not or does
    not exist; then every tick callback is called, in registration order,
    with the advanced pulse, the same accent flag and the tick's time; then
    every state callback, with a snapshot holding the advanced pulse. *)
Theorem tick_effects_in_order
  (handlers : Callback -> CallbackArg -> list Call) (now time : Q) (m : MetronomeCore) :
  (forall cb arg, handlers cb arg = []) ->
  notNull (audioContext m) = true -> oscillator m = gainNode m ->
  exists fuel0, forall fuel, (fuel0 <= fuel)%nat ->
    exists m', tick handlers fuel now time m = Ok m' /\
      let p := nextPulse (_pulse m) (_meter m) in
      let isAccented := accentAt (_accents m) (p - 1) in
      _pulse m' = p /\ oscillator m' = true /\ gainNode m' = true /\
      since m m' =
        (if oscillator m then [] else [NodesCreated])
        ++ click (if isAccented then accentFrequency (config m)
                  else normalFrequency (config m)) time
        ++ map (fun cb => Called cb (TickArg p isAccented time)) (tickCallbacks m)
        ++ map (fun cb => Called cb (StateArg
                  {| isPlaying := _isPlaying m; pulse := p; meter := _meter m;
                     bpm := _bpm m; accents := _accents m |}))
             (stateChangeCallbacks m).
Proof.
  intros Hp Hc Hn.
  exists (length (stateChangeCallbacks m) + length (tickCallbacks m) + 3)%nat.
  intros fuel Hf. exists (ticked time m). split; [apply tick_passive; assumption|].
  cbn zeta.
  assert (Ha : notNull (audioContext (advancePulse m)) = true /\
               oscillator (advancePulse m) = gainNode (advancePulse m) /\
               oscillator (advancePulse m) = oscillator m /\
               trace (advancePulse m) = trace m /\ _accents (advancePulse m) = _accents m /\
               config (advancePulse m) = config m /\
               tickCallbacks (advancePulse m) = tickCallbacks m /\
               stateChangeCallbacks (advancePulse m) = stateChangeCallbacks m /\
               _isPlaying (advancePulse m) = _isPlaying m /\
               _meter (advancePulse m) = _meter m /\ _bpm (advancePulse m) = _bpm m).
  { unfold advancePulse. destruct (_ <=? _); cbn; auto 15. }
  destruct Ha as (A1 & A2 & A3 & A4 & A5 & A6 & A7 & A8 & A9 & A10 & A11).
  destruct (playTick_click time (advancePulse m) A1 A2) as (Ht & Ho & Hg).
  rewrite advancePulse_pulse, A3, A4, A5, A6 in Ht.
  assert (Hf' : _pulse (playTick time (advancePulse m)) = nextPulse (_pulse m) (_meter m) /\
                _accents (playTick time (advancePulse m)) = _accents m /\
                tickCallbacks (playTick time (advancePulse m)) = tickCallbacks m /\
                stateChangeCallbacks (playTick time (advancePulse m))
                = stateChangeCallbacks m /\
                _isPlaying (playTick time (advancePulse m)) = _isPlaying m /\
                _meter (playTick time (advancePulse m)) = _meter m /\
                _bpm (playTick time (advancePulse m)) = _bpm m).
  { rewrite <- advancePulse_pulse, <- A5, <- A7, <- A8, <- A9, <- A10, <- A11.
    unfold playTick, createOscillator.
    repeat (cbn; match goal with
                 | |- context [if ?b then _ else _] => destruct b eqn:?
                 end); auto 10. }
  destruct Hf' as (F1 & F2 & F3 & F4 & F5 & F6 & F7).
  unfold ticked. cbn. rewrite F1. repeat split; try assumption.
  apply since_app. cbn. unfold state. cbn.
  rewrite Ht, F1, F2, F3, F4, F5, F6, F7, <- !app_assoc. reflexivity.
Qed.

Lemma tick_effects_in_order_witness :
  exists m', tick observers 5 0 (1 # 2) shortAccents = Ok m' /\
    _pulse m' = 3 /\
    calls (since shortAccents m') = [(7%nat, TickArg 3 false (1 # 2))] /\
    scheduledTimes (since shortAccents m') = [(1 # 2)%Q].
Proof.
  destruct (tick_effects_in_order observers 0 (1 # 2) shortAccents (fun _ _ => eq_refl)
              eq_refl eq_refl) as (fuel0 & H).
  destruct (H (fuel0 + 5)%nat ltac:(lia)) as (m' & Hm & Hp & _ & _ & Hs).
  exists m'. split.
  - rewrite <- Hm. symmetry. apply run_mono; [lia|]. vm_compute. discriminate.
  - split; [exact Hp|]. rewrite Hs. split; vm_compute; reflexivity.
Defined.

Section Scheduling.

Variable handlers : Callback -> CallbackArg -> list Call.

(** X12: while the metronome is stopped no tick is scheduled: whatever the
    callbacks do, no sequence of timer firings (a timer that outlived
    [stop()]) and of calls of the synchronous interface hands a target time to
    the oscillator, starts the transport or moves the phase kept for the
    resume. *)
Theorem stopped_metronome_schedules_nothing
  (fuel : nat) (acts : list Action) (m m' : MetronomeCore) :
  _isPlaying m = false ->
  final (perform handlers fuel acts m) = Some m' ->
  _isPlaying m' = false /\
  scheduledTimes (trace m') = scheduledTimes (trace m) /\
  timeOffset m' = timeOffset m /\ nextTickTime m' = nextTickTime m /\
  _pulse m' = _pulse m.
Proof.
  revert m. induction acts as [|a acts IH]; intros m Hp H.
  - injection H as <-. auto.
  - cbn [perform] in H.
    assert (Hact : forall x, final (act handlers fuel a m) = Some x ->
              _isPlaying x = false /\
              scheduledTimes (trace x) = scheduledTimes (trace m) /\
              timeOffset x = timeOffset m /\ nextTickTime x = nextTickTime m /\
              _pulse x = _pulse m).
    { intros x Hx. destruct a as [now|now c]; cbn [act] in Hx.
      - unfold scheduleLoop in Hx. rewrite Hp in Hx. cbn in Hx. injection Hx as <-. auto.
      - pose proof (run_frame handlers now fuel (Invoke c) m I) as F. rewrite Hx in F.
        destruct (frame_stopped _ _ F Hp) as (A & B & C).
        destruct (frame_trace _ _ F) as (evs & Ht & Hs).
        repeat split; try assumption.
        + rewrite Ht, scheduledTimes_app, Hs. apply app_nil_r.
        + apply (frame_nextTickTime _ _ F). }
    apply final_andThen in H as [H|(m1 & H1 & H)].
    + apply Hact. rewrite H. reflexivity.
    + destruct (Hact m1 ltac:(rewrite H1; reflexivity)) as (A & B & C & D & E).
      destruct (IH m1 A H) as (A' & B' & C' & D' & E').
      repeat split; congruence.
Qed.

(** Callbacks that never write the tempo. *)
Hypothesis keepsBpm : forall cb arg, Forall (fun c => writesBpm c = false) (handlers cb arg).

(** A pass that returns made exactly as many turns as ticks were inside the
    window. *)
Lemma whileDue_turns now fuel : forall ct m m',
  notNull (audioContext m) = true -> oscillator m = gainNode m ->
  run handlers fuel now (WhileDue ct) m = Ok m' ->
  exists n,
    Progressed m m' n /\ config m' = config m /\
    (forall j, (j < n)%nat ->
       (after (nextTickTime m) (60 / _bpm m) j < ct + scheduleAheadTime (config m))%Q) /\
    (ct + scheduleAheadTime (config m) <= after (nextTickTime m) (60 / _bpm m) n)%Q.
Proof.
  induction fuel as [|fuel IH]; intros ct m m' Hc Hn H; [discriminate|].
  cbn [run] in H. destruct (Qltb _ _) eqn:Ed.
  2:{ injection H as <-. exists 0%nat. split; [apply Progressed_refl; assumption|].
      split; [reflexivity|]. split; [intros j Hj; lia|]. cbn. apply Qltb_ge. exact Ed. }
  destruct (run handlers fuel now (Tick (nextTickTime m)) m) as [m1|m1|] eqn:E;
    cbn in H; try discriminate.
  assert (T : Ticked (nextTickTime m) m m1) by (eapply tick_ticked; eauto; rewrite E; auto).
  assert (B : _bpm m1 = _bpm m) by (eapply tick_keeps_bpm; eauto; rewrite E; reflexivity).
  destruct T as [a b c d e f].
  apply IH in H as (n & (Ht & Hx & Hb & Ho) & Hcfg & Hin & Hout); cbn; try congruence.
  cbn in Ht, Hx, Hb, Hcfg, Hin, Hout. unfold calculateInterval in *.
  rewrite B, a, ?c in *.
  exists (S n). split; [|split; [congruence|split]].
  - unfold Progressed. cbn [progression after].
    rewrite Ht, f, <- app_assoc. cbn. repeat split; auto; congruence.
  - intros [|j] Hj; cbn [after]; [apply Qltb_lt; exact Ed|]. apply Hin. lia.
  - exact Hout.
Qed.

End Scheduling.

(** The timer armed by the pass in which a callback stopped the metronome
    fires, and a callback-free user call is made: nothing is scheduled. *)
Lemma stopped_metronome_schedules_nothing_witness :
  exists m',
    final (perform stopper 10 [TimerFires 1; UserCalls 1 (SetBpm 120); TimerFires 2]
             stoppedByCallback) = Some m' /\
    scheduleIntervalId stoppedByCallback <> None /\
    _isPlaying m' = false /\
    scheduledTimes (trace m') = scheduledTimes (trace stoppedByCallback).
Proof.
  eexists. split; [vm_compute; reflexivity|]. split; [vm_compute; discriminate|].
  match goal with
  | |- _isPlaying ?x = false /\ _ =>
      destruct (stopped_metronome_schedules_nothing stopper 10
                  [TimerFires 1; UserCalls 1 (SetBpm 120); TimerFires 2]
                  stoppedByCallback x) as (A & B & _)
  end.
  - vm_compute. reflexivity.
  - vm_compute. reflexivity.
  - split; [exact A|exact B].
Defined.

Lemma due_unique t step horizon n k :
  (forall j, (j < n)%nat -> (after t step j < horizon)%Q) ->
  (horizon <= after t step n)%Q ->
  (forall j, (j < k)%nat -> (after t step j < horizon)%Q) ->
  (horizon <= after t step k)%Q ->
  n = k.
Proof.
  intros Hn1 Hn2 Hk1 Hk2.
  destruct (Nat.lt_trichotomy n k) as [H|[H|H]]; [|assumption|].
  - pose proof (Hk1 n H). exfalso. eapply Qlt_not_le; eauto.
  - pose proof (Hn1 k H). exfalso. eapply Qlt_not_le; eauto.
Qed.





(** ** Invariants of the whole life cycle

    A property that callback-level tasks keep, and that the writes of [tick],
    [scheduleLoop], [start], [handle] and [dispose] keep, holds after every
    script of user calls and timer firings. *)

Lemma keeps_andThen P o k :
  keeps P o -> (forall m, P m -> keeps P (k m)) -> keeps P (o >>> k).
Proof.
  intros Ho Hk m' H. destruct o as [m1|m1|]; cbn in *; try discriminate.
  - eapply Hk; [apply Ho; reflexivity|exact H].
  - apply Ho. exact H.
Qed.

Lemma keeps_Ok (P : MetronomeCore -> Prop) m : P m -> keeps P (Ok m).
Proof. intros H x E. injection E as <-. exact H. Qed.

Section LifeCycle.

Variable handlers : Callback -> CallbackArg -> list Call.
Variable P : MetronomeCore -> Prop.

Hypothesis P_run : forall now fuel t m,
  admissible (fun _ => True) t -> P m -> keeps P (run handlers fuel now t m).
Hypothesis P_tick : forall time m, P m -> P (playTick time (advancePulse m)).
Hypothesis P_turn : forall t t' m,
  P m -> P (with_lastTickTime t (with_nextTickTime t' m)).
Hypothesis P_armed : forall d m,
  P m -> P (with_scheduleIntervalId (Some d) (emit (TimerArmed d) m)).
Hypothesis P_starting : forall now m, P m -> P (starting now m).
Hypothesis P_clamped : forall v m, P m -> P (with_bpm (clampBpm m v) m).
Hypothesis P_cleared : forall m, P m -> P (cleared m).

Lemma tick_keeps now fuel time m :
  P m -> keeps P (run handlers fuel now (Tick time) m).
Proof.
  intros Hm. destruct fuel as [|fuel]; [intros x H; discriminate|].
  cbn [run]. apply keeps_andThen.
  - apply P_run; [exact I|]. apply P_tick, Hm.
  - intros m1 H1. apply P_run; [exact I|exact H1].
Qed.

Lemma whileDue_keeps now fuel : forall ct m,
  P m -> keeps P (run handlers fuel now (WhileDue ct) m).
Proof.
  induction fuel as [|fuel IH]; intros ct m Hm; [intros x H; discriminate|].
  cbn [run]. destruct (Qltb _ _); [|apply keeps_Ok, Hm].
  apply keeps_andThen; [apply tick_keeps; assumption|].
  intros m1 H1. apply IH, P_turn, H1.
Qed.

Lemma scheduleLoop_keeps now fuel m :
  P m -> keeps P (scheduleLoop handlers fuel now m).
Proof.
  intros Hm. unfold scheduleLoop. destruct (_ || _); [apply keeps_Ok, Hm|].
  apply keeps_andThen; [apply whileDue_keeps; assumption|].
  intros m1 H1. apply keeps_Ok, P_armed, H1.
Qed.

Lemma start_keeps now fuel m : P m -> keeps P (start handlers fuel now m).
Proof.
  intros Hm. unfold start. destruct (_isPlaying m); [apply keeps_Ok, Hm|].
  apply keeps_andThen.
  - apply scheduleLoop_keeps. apply (P_starting now) in Hm. exact Hm.
  - intros m1 H1. apply P_run; [exact I|exact H1].
Qed.

Lemma toggle_keeps now fuel m : P m -> keeps P (toggle handlers fuel now m).
Proof.
  intros Hm. unfold toggle. destruct (_isPlaying m).
  - apply P_run; [exact I|exact Hm].
  - apply start_keeps, Hm.
Qed.

Lemma handle_keeps now fuel newBpm m :
  P m -> keeps P (handle handlers fuel now newBpm m).
Proof.
  intros Hm. unfold handle. apply toggle_keeps.
  destruct newBpm as [v|]; [apply P_clamped, Hm|exact Hm].
Qed.

Lemma dispose_keeps now fuel m : P m -> keeps P (dispose handlers fuel now m).
Proof.
  intros Hm. unfold dispose. apply keeps_andThen; [apply P_run; [exact I|exact Hm]|].
  intros m1 H1. apply keeps_Ok. apply P_cleared in H1. exact H1.
Qed.

Lemma step_keeps fuel s m : P m -> keeps P (step handlers fuel s m).
Proof.
  intros Hm. destruct s as [[now|now c]|now|now|now v|now]; cbn [step act].
  - apply scheduleLoop_keeps, Hm.
  - apply P_run; [exact I|exact Hm].
  - apply start_keeps, Hm.
  - apply toggle_keeps, Hm.
  - apply handle_keeps, Hm.
  - apply dispose_keeps, Hm.
Qed.

Lemma drive_keeps fuel steps : forall m, P m -> keeps P (drive handlers fuel steps m).
Proof.
  induction steps as [|s steps IH]; intros m Hm; [apply keeps_Ok, Hm|].
  cbn [drive]. apply keeps_andThen; [apply step_keeps, Hm|].
  intros m1 H1. apply IH, H1.
Qed.

End LifeCycle.

(** *** The audio nodes *)

Lemma liveNodes_app a b : liveNodes (a ++ b) = liveNodes a + liveNodes b.
Proof.
  induction a as [|e a IH]; [reflexivity|].
  destruct e; cbn; rewrite ?IH; lia.
Qed.

Lemma nodesBalanced_emit e m :
  liveNodes [e] = 0 -> nodesBalanced m -> nodesBalanced (emit e m).
Proof.
  intros He [A B]. split; cbn; [assumption|]. rewrite liveNodes_app, He, B. lia.
Qed.

Lemma nodesKept_prepare now c m :
  match prepare now c m with
  | Return m' | Notify m' | Raise m' => nodesKept m m'
  end.
Proof.
  destruct c as [| | | | |? [a|]| | | | | | |]; cbn [prepare];
    repeat match goal with
           | |- context [if ?b then _ else _] => destruct b eqn:?
           | |- context [match createDefaultAccents ?v with _ => _ end] =>
               destruct (createDefaultAccents v)
           end;
    try (intros H; split; [exact H|auto]).
  intros [A B]. unfold stopped, cleanupAudioNodes, nodesBalanced.
  repeat (cbn; match goal with
               | |- context [if ?b then _ else _] => destruct b eqn:?
               end);
    cbn in *; rewrite ?liveNodes_app; cbn;
    repeat match goal with
           | H : oscillator _ = _ |- _ => rewrite H in *
           | H : gainNode _ = _ |- _ => rewrite H in *
           end;
    try discriminate; repeat split; auto; lia.
Qed.

Lemma run_nodesKept handlers now fuel t m :
  admissible (fun _ => True) t -> related nodesKept nodesKept m (run handlers fuel now t m).
Proof.
  apply run_rule.
  - intros cb arg. apply Forall_forall. auto.
  - intros x H. auto.
  - intros m1 m2 m3 H1 H2 H. destruct (H1 H) as [A B]. destruct (H2 A) as [C D]. auto.
  - intros m1 m2 m3 H1 H2 H. destruct (H1 H) as [A B]. destruct (H2 A) as [C D]. auto.
  - intros c x _. apply nodesKept_prepare.
  - intros cb arg x _ H. split; [apply nodesBalanced_emit; auto|auto].
Qed.

Lemma playTick_nodes time m : nodesBalanced m -> nodesBalanced (playTick time m).
Proof.
  intros [A B]. unfold playTick, createOscillator, nodesBalanced.
  repeat (cbn; match goal with
               | |- context [if ?b then _ else _] => destruct b eqn:?
               end);
    cbn in *; rewrite ?liveNodes_app; cbn;
    repeat match goal with
           | H : oscillator _ = _ |- _ => rewrite H in *
           | H : gainNode _ = _ |- _ => rewrite H in *
           end;
    try discriminate; repeat split; auto; try lia.
Qed.

(** X15: oscillator and gain node are created and released together, and the
    object never holds more than one pair: whatever the user, the timer and
    the callbacks do, it holds an oscillator exactly when it holds a gain
    node, and exactly when one more pair has been created than released. *)
Theorem nodes_created_and_released_in_pairs
  (handlers : Callback -> CallbackArg -> list Call) (fuel : nat)
  (steps : list Step) (m m' : MetronomeCore) :
  nodesBalanced m ->
  final (drive handlers fuel steps m) = Some m' ->
  nodesBalanced m'.
Proof.
  intros Hm. revert m'. apply drive_keeps; [| | | | | | |exact Hm].
  - intros now f t x Ht Hx y H. pose proof (run_nodesKept handlers now f t x Ht) as R.
    destruct (run handlers f now t x); cbn in *; try discriminate;
      injection H as ->; apply R; assumption.
  - intros time x Hx. apply playTick_nodes. unfold advancePulse.
    destruct (_ <=? _); exact Hx.
  - intros t t' x Hx. exact Hx.
  - intros d x [A B]. split; cbn; [assumption|]. rewrite liveNodes_app, B. cbn. lia.
  - intros now x [A B]. unfold starting, initAudioContext.
    destruct (audioContext x) as [[]|] eqn:E; cbn; rewrite ?E; cbn; split; cbn; assumption.
  - intros v x Hx. exact Hx.
  - intros x [A B]. unfold cleared. cbn.
    destruct (notNull (audioContext x)); split; cbn; auto.
    rewrite liveNodes_app, B. cbn. lia.
Qed.

(** A tick callback stops the metronome during a pass with two ticks due; the
    second re-creates the nodes, and [dispose()] then finds the metronome
    stopped. *)
Lemma nodes_created_and_released_in_pairs_witness :
  exists m',
    final (drive stopper 30
             [Handles 0 (Some 300%Q); Does (UserCalls 0 (OnTick 1%nat));
              Does (TimerFires (1 # 2)); Disposes 1] defaultMetronome) = Some m' /\
    nodesBalanced m' /\ oscillator m' = true /\ liveNodes (trace m') = 1.
Proof.
  eexists. split; [vm_compute; reflexivity|].
  split; [|split; reflexivity].
  apply (nodes_created_and_released_in_pairs stopper 30
           [Handles 0 (Some 300%Q); Does (UserCalls 0 (OnTick 1%nat));
            Does (TimerFires (1 # 2)); Disposes 1] defaultMetronome).
  - split; reflexivity.
  - vm_compute. reflexivity.
Defined.

(** *** The tempo bounds *)

Lemma playTick_keeps_bpm_config time m :
  _bpm (playTick time (advancePulse m)) = _bpm m /\
  config (playTick time (advancePulse m)) = config m.
Proof.
  unfold playTick, createOscillator, advancePulse.
  repeat (cbn; match goal with
               | |- context [if ?b then _ else _] => destruct b eqn:?
               end); auto.
Qed.

Lemma tempoWithin_fields c m m' :
  _bpm m' = _bpm m -> config m' = config m -> tempoWithin c m -> tempoWithin c m'.
Proof.
  unfold tempoWithin, bpmInRange. intros -> ->. auto.
Qed.

Lemma run_keeps_config handlers now fuel t m m' :
  admissible (fun _ => True) t ->
  final (run handlers fuel now t m) = Some m' -> config m' = config m.
Proof.
  intros Ht H. pose proof (run_frame handlers now fuel t m Ht) as F.
  rewrite H in F. apply F.
Qed.

Section TempoBounds.

Variable handlers : Callback -> CallbackArg -> list Call.
Variable c : Config.

Lemma tempoWithin_run now fuel t m :
  admissible (fun _ => True) t -> tempoWithin c m ->
  keeps (tempoWithin c) (run handlers fuel now t m).
Proof.
  intros Ht (A & B & C) y H. split; [|split; [exact B|]].
  - rewrite <- A. eapply run_keeps_config; eauto.
  - apply (run_keeps_range handlers now fuel t m y Ht);
      [rewrite A; exact B|exact H|exact C].
Qed.

Lemma tempoWithin_tick time m :
  tempoWithin c m -> tempoWithin c (playTick time (advancePulse m)).
Proof.
  destruct (playTick_keeps_bpm_config time m). apply tempoWithin_fields; assumption.
Qed.

Lemma tempoWithin_starting now m : tempoWithin c m -> tempoWithin c (starting now m).
Proof.
  apply tempoWithin_fields; unfold starting, initAudioContext;
    destruct (audioContext m) as [[]|] eqn:E; cbn; rewrite ?E; reflexivity.
Qed.

Lemma tempoWithin_clamped v m :
  config m = c -> (minBpm c <= maxBpm c)%Q -> tempoWithin c (with_bpm (clampBpm m v) m).
Proof.
  intros A B. split; [exact A|split; [exact B|]].
  unfold bpmInRange. cbn. apply clampBpm_in_range. rewrite A. exact B.
Qed.

Lemma tempoWithin_cleared m : tempoWithin c m -> tempoWithin c (cleared m).
Proof.
  apply tempoWithin_fields; unfold cleared; cbn;
    destruct (notNull (audioContext m)); reflexivity.
Qed.

End TempoBounds.





(** ** Stopping and disposing *)


Lemma idle_prepare now c m :
  match prepare now c m with
  | Return m' | Notify m' | Raise m' => idle m m'
  end.
Proof.
  destruct c as [| | | | |? [a|]| | | | | | |]; cbn [prepare];
    repeat match goal with
           | |- context [if ?b then _ else _] => destruct b eqn:?
           | |- context [match createDefaultAccents ?v with _ => _ end] =>
               destruct (createDefaultAccents v)
           end;
    try (intros H; repeat split; auto; fail).
  intros H. rewrite H in Heqb. discriminate.
Qed.

Lemma run_idle handlers now fuel t m m' :
  admissible (fun _ => True) t ->
  final (run handlers fuel now t m) = Some m' -> idle m m'.
Proof.
  intros Ht H.
  assert (L : related idle idle m (run handlers fuel now t m)).
  { apply run_rule with (allowed := fun _ => True); auto.
    - intros cb arg. apply Forall_forall. auto.
    - intros x Hx. auto.
    - intros m1 m2 m3 H1 H2 Hx. destruct (H1 Hx) as (A & B & C & D & E).
      destruct (H2 A) as (A' & B' & C' & D' & E'). repeat split; congruence.
    - intros m1 m2 m3 H1 H2 Hx. destruct (H1 Hx) as (A & B & C & D & E).
      destruct (H2 A) as (A' & B' & C' & D' & E'). repeat split; congruence.
    - intros c x _. apply idle_prepare.
    - intros cb arg x _ Hx. repeat split; auto.
      change (trace (emit (Called cb arg) x)) with (trace x ++ [Called cb arg]).
      rewrite liveNodes_app. cbn. lia. }
  destruct (run handlers fuel now t m); cbn in *; try discriminate;
    injection H as <-; exact L.
Qed.

Lemma stopped_idle now m :
  nodesBalanced m ->
  _isPlaying (stopped now m) = false /\ scheduleIntervalId (stopped now m) = None /\
  oscillator (stopped now m) = false /\ gainNode (stopped now m) = false /\
  liveNodes (trace (stopped now m)) = 0.
Proof.
  intros [A B]. unfold stopped, cleanupAudioNodes.
  repeat (cbn; match goal with
               | |- context [if ?b then _ else _] => destruct b eqn:?
               end);
    cbn in *; rewrite ?liveNodes_app; cbn;
    repeat match goal with
           | H : oscillator _ = _ |- _ => rewrite H in *
           | H : gainNode _ = _ |- _ => rewrite H in *
           end;
    try discriminate; repeat split; auto; try congruence; try lia;
    (destruct (scheduleIntervalId m); [discriminate|reflexivity]).
Qed.

(** X18: [stop()] on a playing metronome leaves it stopped with no timer
    pending and no audio node alive, every pair created having been released,
    whatever the state callbacks it notifies do. *)
Theorem stop_clears_timer_and_releases_nodes
  (handlers : Callback -> CallbackArg -> list Call) (fuel : nat) (now : Q)
  (m m' : MetronomeCore) :
  _isPlaying m = true -> nodesBalanced m ->
  final (run handlers fuel now (Invoke Stop) m) = Some m' ->
  _isPlaying m' = false /\ scheduleIntervalId m' = None /\
  oscillator m' = false /\ gainNode m' = false /\ liveNodes (trace m') = 0.
Proof.
  intros Hp Hn H. destruct fuel as [|fuel]; [discriminate|].
  rewrite run_Invoke in H. cbn [prepare] in H. rewrite Hp in H. cbn [negb] in H.
  destruct (stopped_idle now m Hn) as (A & B & C & D & E).
  apply run_idle in H; [|exact I]. destruct (H A) as (A' & B' & C' & D' & E').
  repeat split; congruence.
Qed.

Lemma stop_clears_timer_and_releases_nodes_witness :
  exists m',
    final (run observers 5 1 (Invoke Stop) fastMetronome) = Some m' /\
    _isPlaying m' = false /\ scheduleIntervalId m' = None /\
    oscillator m' = false /\ gainNode m' = false /\ liveNodes (trace m') = 0.
Proof.
  eexists. split; [vm_compute; reflexivity|].
  apply (stop_clears_timer_and_releases_nodes observers 5 1 fastMetronome).
  - reflexivity.
  - split; vm_compute; reflexivity.
  - vm_compute. reflexivity.
Defined.

(** X19: [dispose()], when it returns, leaves the metronome stopped, without
    audio context and with both registries empty; disposing again changes
    nothing.  On a metronome that was already stopped its [stop()] returns at
    once, so nobody is notified, no node is released and no timer is
    cleared. *)
Theorem dispose_empties_the_object
  (handlers : Callback -> CallbackArg -> list Call) (fuel : nat) (now : Q)
  (m m' : MetronomeCore) :
  dispose handlers fuel now m = Ok m' ->
  disposed m' /\
  (forall fuel' now', (1 <= fuel')%nat -> dispose handlers fuel' now' m' = Ok m') /\
  (_isPlaying m = false ->
   calls (trace m') = calls (trace m) /\ oscillator m' = oscillator m /\
   scheduleIntervalId m' = scheduleIntervalId m).
Proof.
  intros H. unfold dispose in H.
  destruct (run handlers fuel now (Invoke Stop) m) as [m1|m1|] eqn:E; cbn in H;
    try discriminate.
  injection H as <-.
  assert (Hs : _isPlaying m1 = false).
  { destruct fuel as [|f]; [discriminate|]. rewrite run_Invoke in E. cbn [prepare] in E.
    destruct (_isPlaying m) eqn:Hp; cbn in E.
    - eapply (run_idle handlers now f (StateLoop _ 0)); [exact I|rewrite E; reflexivity|].
      unfold stopped, cleanupAudioNodes.
      repeat (cbn; match goal with
                   | |- context [if ?b then _ else _] => destruct b eqn:?
                   end); reflexivity.
    - injection E as <-. exact Hp. }
  assert (Hd : disposed (cleared m1)).
  { unfold disposed, cleared. cbn.
    destruct (audioContext m1) eqn:Hc; cbn; rewrite ?Hc; auto. }
  change (disposed (cleared m1) /\
          (forall fuel' now', (1 <= fuel')%nat ->
             dispose handlers fuel' now' (cleared m1) = Ok (cleared m1)) /\
          (_isPlaying m = false ->
           calls (trace (cleared m1)) = calls (trace m) /\
           oscillator (cleared m1) = oscillator m /\
           scheduleIntervalId (cleared m1) = scheduleIntervalId m)).
  split; [exact Hd|split].
  - intros [|f] now' Hf; [lia|]. unfold dispose. rewrite run_Invoke. cbn [prepare].
    destruct Hd as (A & B & C & D). rewrite A. cbn.
    rewrite B. cbn. destruct (cleared m1); cbn in *. subst. reflexivity.
  - intros Hp. destruct fuel as [|f]; [discriminate|]. rewrite run_Invoke in E.
    cbn [prepare] in E. rewrite Hp in E. cbn in E. injection E as <-.
    unfold cleared. cbn. destruct (notNull (audioContext m)); cbn; auto.
    split; [|auto]. rewrite calls_app. apply app_nil_r.
Qed.

(** The metronome was stopped by a callback: [dispose()] leaves the
    oscillator it holds. *)
Lemma dispose_empties_the_object_witness :
  exists m',
    dispose stopper 30 1 stoppedByCallback = Ok m' /\
    disposed m' /\ dispose stopper 1 2 m' = Ok m' /\ oscillator m' = true.
Proof.
  assert (E : exists m', dispose stopper 30 1 stoppedByCallback = Ok m')
    by (eexists; vm_compute; reflexivity).
  destruct E as [m' E]. exists m'. split; [exact E|].
  destruct (dispose_empties_the_object stopper 30 1 stoppedByCallback m' E) as (A & B & C).
  split; [exact A|]. split; [apply B; lia|].
  destruct (C ltac:(vm_compute; reflexivity)) as (_ & -> & _). vm_compute. reflexivity.
Defined.

(** ** Construction, and what an unchecked configuration does to the loop *)

(** X20: the constructor validates nothing.  It throws only when it has to
    build the default accents and [new Array(meter)] refuses the length; when
    it returns, tempo and meter are the configured values as given, the
    metronome is stopped at pulse 0 with nothing registered, and the default
    accents have [meter] entries of which only the first is set.  With the
    accents given it never throws, whatever the meter. *)
Theorem constructor_validates_nothing (cfg : MetronomeConfig) :
  (new_MetronomeCore cfg = None <->
   cfg_accents cfg = None /\
   ~ (0 <= default 4 (cfg_meter cfg) < 2 ^ 32)) /\
  (forall m, new_MetronomeCore cfg = Some m ->
     _bpm m = default 90%Q (cfg_bpm cfg) /\
     _meter m = default 4 (cfg_meter cfg) /\
     _isPlaying m = false /\ _pulse m = 0 /\
     stateChangeCallbacks m = [] /\ tickCallbacks m = [] /\ trace m = [] /\
     match cfg_accents cfg with
     | Some a => _accents m = a
     | None =>
         accentsMatchMeter m /\
         forall i, accentAt (_accents m) i = (i =? 0) && (0 <? _meter m)
     end).
Proof.
  unfold new_MetronomeCore. split.
  - destruct (cfg_accents cfg) as [a|]; cbn.
    + split; [discriminate|intros [H _]; discriminate].
    + unfold createDefaultAccents.
      destruct (0 <=? default 4 (cfg_meter cfg)) eqn:E0;
        destruct (default 4 (cfg_meter cfg) <? 2 ^ 32) eqn:E1; cbn;
        try apply Z.leb_le in E0; try apply Z.leb_gt in E0;
        try apply Z.ltb_lt in E1; try apply Z.ltb_ge in E1;
        (split; [intros H; first [discriminate|split; [reflexivity|lia]]
                |intros [_ H]; first [reflexivity|exfalso; lia]]).
  - intros m H. destruct (cfg_accents cfg) as [a|]; cbn in H.
    + injection H as <-. cbn. repeat split; reflexivity.
    + destruct (createDefaultAccents (default 4 (cfg_meter cfg))) as [a|] eqn:E;
        cbn in H; [|discriminate].
      injection H as <-. cbn. repeat split; try reflexivity.
      * unfold accentsMatchMeter. cbn. eapply createDefaultAccents_length; eauto.
      * intros i. unfold accentAt.
        destruct (0 <? default 4 (cfg_meter cfg)) eqn:E0.
        -- apply Z.ltb_lt in E0.
           rewrite (createDefaultAccents_first _ _ E E0).
           destruct (i <? 0) eqn:Ei; [apply Z.ltb_lt in Ei|apply Z.ltb_ge in Ei].
           ++ replace (i =? 0) with false by (symmetry; apply Z.eqb_neq; lia). reflexivity.
           ++ destruct (Z.to_nat i) as [|k] eqn:Ek.
              ** replace (i =? 0) with true by (symmetry; apply Z.eqb_eq; lia). reflexivity.
              ** replace (i =? 0) with false by (symmetry; apply Z.eqb_neq; lia).
                 cbn. destruct (replicate _ false !! k) as [b|] eqn:Er; [|reflexivity].
                 apply lookup_replicate in Er as [-> _]. reflexivity.
        -- apply Z.ltb_ge in E0. rewrite andb_false_r.
           unfold createDefaultAccents in E.
           destruct (0 <=? default 4 (cfg_meter cfg)) eqn:E1; [|discriminate].
           apply Z.leb_le in E1.
           replace (default 4 (cfg_meter cfg)) with 0 in E by lia.
           cbn in E. injection E as <-.
           destruct (i <? 0); [reflexivity|]. rewrite lookup_nil. reflexivity.
Qed.

(** [{ meter: 2^32 }] throws; [{ meter: 2^32, accents: [true] }] and
    [{ meter: 0 }] construct. *)
Lemma constructor_validates_nothing_witness :
  new_MetronomeCore (configWithMeter (2 ^ 32)) = None /\
  (exists m, new_MetronomeCore (configWithAccents (2 ^ 32) [true]) = Some m /\
             _meter m = 2 ^ 32 /\ _accents m = [true]) /\
  (exists m, new_MetronomeCore (configWithMeter 0) = Some m /\
             _meter m = 0 /\ _accents m = []).
Proof.
  split; [|split].
  - apply (proj1 (constructor_validates_nothing (configWithMeter (2 ^ 32)))).
    split; [reflexivity|]. cbn. lia.
  - eexists. split; [reflexivity|]. split; reflexivity.
  - eexists. split; [reflexivity|]. split; reflexivity.
Defined.

(** X21: a negative tempo, which only the constructor can store, makes the
    scheduling loop of [start()] run forever: every turn moves [nextTickTime]
    further into the past, so the window never closes and [start()] does not
    return, however much fuel it is given. *)
Theorem start_never_returns_at_negative_tempo
  (handlers : Callback -> CallbackArg -> list Call) (now : Q) (m : MetronomeCore) :
  (forall cb arg, handlers cb arg = []) ->
  _isPlaying m = false -> (_bpm m < 0)%Q ->
  (timeOffset m < scheduleAheadTime (config m))%Q ->
  forall fuel, start handlers fuel now m = OutOfFuel.
Proof.
  intros Hp Hs Hb Ho fuel. unfold start. rewrite Hs.
  destruct (initAudioContext_fields m) as (A & _ & _ & _ & B & C).
  unfold scheduleLoop. cbn. rewrite A. cbn.
  rewrite (whileDue_negative_bpm_never_returns handlers now Hp); [reflexivity| |].
  - cbn. rewrite B. exact Hb.
  - cbn. rewrite C.
    assert (config (initAudioContext m) = config m) as ->.
    { unfold initAudioContext. destruct (audioContext m) as [[]|] eqn:E; cbn; rewrite ?E; reflexivity. }
    lra.
Qed.

Lemma start_never_returns_at_negative_tempo_witness :
  exists m, new_MetronomeCore (configWithBpm (-60)) = Some m /\
            start observers 1000 0 m = OutOfFuel.
Proof.
  eexists. split; [reflexivity|].
  apply (start_never_returns_at_negative_tempo observers 0).
  - reflexivity.
  - reflexivity.
  - vm_compute. reflexivity.
  - vm_compute. reflexivity.
Defined.

(** ** The timer *)

(** A pass that made at least one turn: [lastTickTime] is the last time
    scheduled, it was inside the window, and [nextTickTime] is one interval
    later, at the tempo the loop read last, and outside the window. *)
Lemma whileDue_exit handlers now fuel : forall ct m m',
  (nextTickTime m < ct + scheduleAheadTime (config m))%Q ->
  run handlers fuel now (WhileDue ct) m = Ok m' ->
  config m' = config m /\
  nextTickTime m' = (lastTickTime m' + 60 / _bpm m')%Q /\
  (lastTickTime m' < ct + scheduleAheadTime (config m))%Q /\
  (ct + scheduleAheadTime (config m) <= nextTickTime m')%Q.
Proof.
  induction fuel as [|fuel IH]; intros ct m m' Hd H; [discriminate|].
  cbn [run] in H. rewrite (proj2 (Qltb_lt _ _) Hd) in H.
  destruct (run handlers fuel now (Tick (nextTickTime m)) m) as [m1|m1|] eqn:E;
    cbn in H; try discriminate.
  destruct (tick_frame handlers now fuel (nextTickTime m) m m1) as (A & _ & C & _);
    [rewrite E; reflexivity|].
  unfold calculateInterval in H.
  set (m2 := with_lastTickTime (nextTickTime m)
               (with_nextTickTime (nextTickTime m1 + 60 / _bpm m1) m1)) in *.
  destruct (Qltb (nextTickTime m2) (ct + scheduleAheadTime (config m2))) eqn:Ed.
  - apply Qltb_lt in Ed. destruct (IH ct m2 m' Ed H) as (a & b & c & d).
    change (config m2) with (config m1) in *. rewrite C in *. auto.
  - destruct fuel as [|f]; [discriminate|]. cbn [run] in H. rewrite Ed in H.
    injection H as <-. apply Qltb_ge in Ed.
    change (config m2) with (config m1) in *. rewrite C in *.
    split; [reflexivity|]. split; [cbn; rewrite A; reflexivity|].
    split; [exact Hd|exact Ed].
Qed.


